(** * Weex JS runtime bridge: instance registry and instance controls

    A shallow embedding of

    - [html5/runtime/index.js]: the bundle-header sniffer [checkVersion] and
      the instance registry ([prepareInstance], [createInstance] and the
      per-instance methods generated by [genInstance]);
    - [html5/default/app/ctrl.js]: [fireEvent], [callback], [updateActions],
      [callTasks] and [normalize].

    JavaScript values are a tagged inductive type, objects used as tables are
    finite maps, and the functions of the two files are written in a small
    state-and-exception monad.  Code that lives outside the two files (the
    frameworks, the virtual DOM, user callbacks, the native transport, host
    built-ins on floating-point numbers) is taken as a parameter. *)

From Stdlib Require Import ZArith String Ascii List Bool.
From stdpp Require Import base option list gmap strings pretty.

Set Warnings "-register-all".
Local Open Scope string_scope.
Local Open Scope list_scope.
Local Open Scope Z_scope.

(** ** JavaScript values *)

(** A JavaScript object with its own enumerable properties in insertion
    order. *)
Abbreviation props V := (list (string * V)).

Inductive value : Type :=
  | VUndefined
  | VNull
  | VBool (b : bool)
  | VNum (lit : string)                 (* a number, named by a literal denoting it *)
  | VStr (s : string)
  | VRegExp (source flags : string)
  | VDate (t : Z)                       (* a valid date: milliseconds since the epoch *)
  | VArray (items : list value)
  | VObject (fields : props value)      (* plain object *)
  | VElement (ref : string)             (* instance of renderer.Element *)
  | VFunction (f : nat)                 (* a closure, named by its identity *)
  | VError (message : string)           (* new Error(message) *)
  | VOther (cls : string).              (* host object of another class *)

Global Instance value_inhabited : Inhabited value := populate VUndefined.

(** [typeof v === 'function'] *)
Definition is_function (v : value) : bool :=
  match v with VFunction _ => true | _ => false end.

(** [v instanceof renderer.Element] *)
Definition instanceof_Element (v : value) : bool :=
  match v with VElement _ => true | _ => false end.

(** [v === false] *)
Definition is_false (v : value) : bool :=
  match v with VBool false => true | _ => false end.

(** [v === undefined], as in [typeof v === 'undefined'] *)
Definition is_undefined (v : value) : bool :=
  match v with VUndefined => true | _ => false end.

(** Property read [o.k] and write [o.k = v] on a plain object. *)
Fixpoint get_prop {V} (k : string) (o : props V) : option V :=
  match o with
  | [] => None
  | (k', v) :: o' => if String.eqb k k' then Some v else get_prop k o'
  end.

Fixpoint set_prop {V} (k : string) (v : V) (o : props V) : props V :=
  match o with
  | [] => [(k, v)]
  | (k', v') :: o' =>
      if String.eqb k k' then (k, v) :: o' else (k', v') :: set_prop k v o'
  end.

(** Reading a missing property gives [undefined]. *)
Definition get_field (k : string) (o : props value) : value :=
  default VUndefined (get_prop k o).

(** The double quote, and a text between double quotes. *)
Definition dquote : ascii := ascii_of_N 34.
Definition quoted (s : string) : string := String dquote (s +:+ String dquote "").

(** ** Computations: state and exceptions

    A JavaScript function body either returns a value or throws one, and
    in both cases leaves a store behind. *)

Inductive outcome (S A : Type) : Type :=
  | Ret (a : A) (s : S)
  | Throw (e : value) (s : S).
Arguments Ret {S A} a s.
Arguments Throw {S A} e s.

Definition M (S A : Type) : Type := S → outcome S A.

Definition ret {S A} (a : A) : M S A := λ s, Ret a s.
Definition throw {S A} (e : value) : M S A := λ s, Throw e s.
Definition bind {S A B} (m : M S A) (k : A → M S B) : M S B :=
  λ s, match m s with
       | Ret a s' => k a s'
       | Throw e s' => Throw e s'
       end.
Definition gets {S A} (f : S → A) : M S A := λ s, Ret (f s) s.
Definition modify {S} (f : S → S) : M S unit := λ s, Ret tt (f s).

Global Instance M_ret {S} : MRet (M S) := λ A a, ret a.
Global Instance M_bind {S} : MBind (M S) := λ A B k m, bind m k.

(** The store a computation leaves behind, however it completes. *)
Definition final {S A} (o : outcome S A) : S :=
  match o with Ret _ s => s | Throw _ s => s end.

Definition returned {S A} (o : outcome S A) : option A :=
  match o with Ret a _ => Some a | Throw _ _ => None end.

(** A [TypeError], thrown on a property access on [undefined] or [null] and
    on a call of something that is not callable. *)
Definition TypeError : value := VError "TypeError".

(** ** Regular expressions

    The fragment of JavaScript regular expressions that [versionRegExp]
    uses: single characters and negated single characters, taken once,
    optionally ([?]) or greedily repeated ([*]), and one capture group.
    The pattern is anchored at the start of the input ([^], no [m] flag). *)

Module RegExp.

Inductive cclass : Type :=
  | Chr (c : ascii)       (* the character c *)
  | NotChr (c : ascii).   (* [^c] *)

Definition in_class (k : cclass) (c : ascii) : bool :=
  match k with
  | Chr a => Ascii.eqb c a
  | NotChr a => negb (Ascii.eqb c a)
  end.

Inductive atom : Type :=
  | One (k : cclass)
  | Opt (k : cclass)      (* k? *)
  | Star (k : cclass)     (* k* *)
  | GroupOpen             (* ( *)
  | GroupClose.           (* ) *)

(** Group 1 while matching: the text it has taken so far while it is
    open, and its text once it is closed. *)
Record group : Type := Group {
  opened : option string;
  closed : option string
}.

Definition feed (c : ascii) (g : group) : group :=
  match opened g with
  | Some t => Group (Some (t +:+ String c "")) (closed g)
  | None => g
  end.

(** Backtracking match of [r] against [s].  Greedy: a repetition first
    tries to take one more character and falls back to the rest of the
    pattern. *)
Fixpoint exec_from (r : list atom) (s : string) (g : group) {struct r}
  : option group :=
  match r with
  | [] => Some g
  | One k :: r' =>
      match s with
      | String c s' => if in_class k c then exec_from r' s' (feed c g) else None
      | EmptyString => None
      end
  | Opt k :: r' =>
      match s with
      | String c s' =>
          if in_class k c then
            match exec_from r' s' (feed c g) with
            | Some m => Some m
            | None => exec_from r' s g
            end
          else exec_from r' s g
      | EmptyString => exec_from r' s g
      end
  | Star k :: r' =>
      (fix star (s : string) (g : group) {struct s} : option group :=
         match s with
         | String c s' =>
             if in_class k c then
               match star s' (feed c g) with
               | Some m => Some m
               | None => exec_from r' s g
               end
             else exec_from r' s g
         | EmptyString => exec_from r' s g
         end) s g
  | GroupOpen :: r' => exec_from r' s (Group (Some "") (closed g))
  | GroupClose :: r' => exec_from r' s (Group None (opened g))
  end.

(** [r.exec(s)] for a pattern anchored at the start: [result[1]], when
    there is a match. *)
Definition exec (r : list atom) (s : string) : option string :=
  g ← exec_from r s (Group None None); closed g.

End RegExp.

(** ** JSON.parse

    The host's [JSON.parse] on a text of UTF-8 bytes, as a pushdown
    automaton that reads the text once, left to right.  Numbers are kept
    as their literal: nothing here computes with them. *)

Module JSON.

Inductive token : Type :=
  | TLBrace | TRBrace | TLBracket | TRBracket | TColon | TComma
  | TScalar (v : value).   (* a string, a number, true, false or null *)

(** *** The parser: a stack of containers under construction *)

Inductive frame : Type :=
  | InArray (acc : list value)                 (* items so far, last first *)
  | InObject (acc : props value)               (* members so far *)
  | InMember (acc : props value) (key : string). (* a key was read, its value is due *)

Inductive mode : Type :=
  | MValue         (* a value is due *)
  | MArrayFirst    (* after [: a value or ] *)
  | MObjectFirst   (* after {: a key or } *)
  | MKey           (* after , in an object: a key *)
  | MColon         (* after a key: the colon *)
  | MAfter         (* after a value inside a container: , or the closer *)
  | MDone (v : value).  (* the top-level value is complete *)

Definition pstate : Type := (mode * list frame)%type.

(** A complete value goes into the enclosing container.  A repeated key
    keeps its first position and takes the last value. *)
Definition deliver (v : value) (stk : list frame) : option pstate :=
  match stk with
  | [] => Some (MDone v, [])
  | InArray acc :: st => Some (MAfter, InArray (v :: acc) :: st)
  | InMember acc k :: st => Some (MAfter, InObject (set_prop k v acc) :: st)
  | InObject _ :: _ => None
  end.

Definition start_value (t : token) (stk : list frame) : option pstate :=
  match t with
  | TLBrace => Some (MObjectFirst, InObject [] :: stk)
  | TLBracket => Some (MArrayFirst, InArray [] :: stk)
  | TScalar v => deliver v stk
  | _ => None
  end.

Definition close_array (stk : list frame) : option pstate :=
  match stk with
  | InArray acc :: st => deliver (VArray (rev acc)) st
  | _ => None
  end.

Definition close_object (stk : list frame) : option pstate :=
  match stk with
  | InObject acc :: st => deliver (VObject acc) st
  | _ => None
  end.

Definition read_key (t : token) (stk : list frame) : option pstate :=
  match t, stk with
  | TScalar (VStr k), InObject acc :: st => Some (MColon, InMember acc k :: st)
  | _, _ => None
  end.

Definition pstep (t : token) (p : pstate) : option pstate :=
  let '(m, stk) := p in
  match m with
  | MValue => start_value t stk
  | MArrayFirst =>
      match t with TRBracket => close_array stk | _ => start_value t stk end
  | MObjectFirst =>
      match t with TRBrace => close_object stk | _ => read_key t stk end
  | MKey => read_key t stk
  | MColon => match t with TColon => Some (MValue, stk) | _ => None end
  | MAfter =>
      match t, stk with
      | TComma, InArray _ :: _ => Some (MValue, stk)
      | TComma, InObject _ :: _ => Some (MKey, stk)
      | TRBracket, _ => close_array stk
      | TRBrace, _ => close_object stk
      | _, _ => None
      end
  | MDone _ => None
  end.

(** *** The lexer *)

(** Number literals: an optional minus; 0 or a digit sequence that does
    not start with 0; an optional fraction; an optional exponent. *)
Inductive nstate : Type :=
  | NMinus | NZero | NInt | NDot | NFrac | NE | NESign | NExp.

Definition is_digit (c : ascii) : bool :=
  let n := N_of_ascii c in ((48 <=? n) && (n <=? 57))%N.
Definition is_lower (c : ascii) : bool :=
  let n := N_of_ascii c in ((97 <=? n) && (n <=? 122))%N.
Definition is_e (c : ascii) : bool := Ascii.eqb c "e" || Ascii.eqb c "E".
Definition is_sign (c : ascii) : bool := Ascii.eqb c "+" || Ascii.eqb c "-".
Definition is_ws (c : ascii) : bool :=
  let n := N_of_ascii c in
  ((n =? 32) || (n =? 9) || (n =? 10) || (n =? 13))%N.

Definition nstep (st : nstate) (c : ascii) : option nstate :=
  match st with
  | NMinus => if Ascii.eqb c "0" then Some NZero
              else if is_digit c then Some NInt else None
  | NZero => if Ascii.eqb c "." then Some NDot
             else if is_e c then Some NE else None
  | NInt => if is_digit c then Some NInt
            else if Ascii.eqb c "." then Some NDot
            else if is_e c then Some NE else None
  | NDot => if is_digit c then Some NFrac else None
  | NFrac => if is_digit c then Some NFrac
             else if is_e c then Some NE else None
  | NE => if is_sign c then Some NESign
          else if is_digit c then Some NExp else None
  | NESign => if is_digit c then Some NExp else None
  | NExp => if is_digit c then Some NExp else None
  end.

Definition naccept (st : nstate) : bool :=
  match st with NZero | NInt | NFrac | NExp => true | _ => false end.

(** The content of a string literal: bytes of the text as they are, and
    the 16-bit code units that [\uXXXX] escapes name. *)
Definition unit16 : Type := (ascii + N)%type.

Definition utf8 (n : N) : string :=
  let b (k : N) := ascii_of_N k in
  (if n <? 128 then String (b n) ""
   else if n <? 2048 then
     String (b (192 + n / 64)) (String (b (128 + n mod 64)) "")
   else if n <? 65536 then
     String (b (224 + n / 4096))
       (String (b (128 + (n / 64) mod 64)) (String (b (128 + n mod 64)) ""))
   else
     String (b (240 + n / 262144))
       (String (b (128 + (n / 4096) mod 64))
          (String (b (128 + (n / 64) mod 64)) (String (b (128 + n mod 64)) ""))))%N.

Definition is_high (n : N) : bool := ((55296 <=? n) && (n <=? 56319))%N.
Definition is_low (n : N) : bool := ((56320 <=? n) && (n <=? 57343))%N.

(** A high surrogate followed by a low one names one code point. *)
Fixpoint decode (l : list unit16) : string :=
  match l with
  | [] => ""
  | inl c :: l' => String c (decode l')
  | inr hi :: l' =>
      match l' with
      | inr lo :: l'' =>
          if is_high hi && is_low lo
          then utf8 (65536 + (hi - 55296) * 1024 + (lo - 56320))%N +:+ decode l''
          else utf8 hi +:+ decode l'
      | _ => utf8 hi +:+ decode l'
      end
  end.

Definition hex_digit (c : ascii) : option N :=
  let n := N_of_ascii c in
  (if (48 <=? n) && (n <=? 57) then Some (n - 48)
   else if (97 <=? n) && (n <=? 102) then Some (n - 87)
   else if (65 <=? n) && (n <=? 70) then Some (n - 55)
   else None)%N.

Definition escape (c : ascii) : option ascii :=
  if Ascii.eqb c dquote then Some dquote
  else if Ascii.eqb c "\" then Some "\"%char
  else if Ascii.eqb c "/" then Some "/"%char
  else if Ascii.eqb c "b" then Some (ascii_of_N 8)
  else if Ascii.eqb c "f" then Some (ascii_of_N 12)
  else if Ascii.eqb c "n" then Some (ascii_of_N 10)
  else if Ascii.eqb c "r" then Some (ascii_of_N 13)
  else if Ascii.eqb c "t" then Some (ascii_of_N 9)
  else None.

Inductive lstate : Type :=
  | LIdle
  | LNumber (st : nstate) (lit : string)
  | LWord (w : string)
  | LString (acc : list unit16)            (* content so far, last first *)
  | LEscape (acc : list unit16)            (* after a backslash *)
  | LHex (acc : list unit16) (k : nat) (n : N). (* after \u: k digits read, value n *)

Definition word (w : string) : option value :=
  if String.eqb w "true" then Some (VBool true)
  else if String.eqb w "false" then Some (VBool false)
  else if String.eqb w "null" then Some VNull
  else None.

(** A character read between tokens. *)
Definition idle (c : ascii) (p : pstate) : option (lstate * pstate) :=
  if is_ws c then Some (LIdle, p)
  else if Ascii.eqb c "{" then p' ← pstep TLBrace p; Some (LIdle, p')
  else if Ascii.eqb c "}" then p' ← pstep TRBrace p; Some (LIdle, p')
  else if Ascii.eqb c "[" then p' ← pstep TLBracket p; Some (LIdle, p')
  else if Ascii.eqb c "]" then p' ← pstep TRBracket p; Some (LIdle, p')
  else if Ascii.eqb c ":" then p' ← pstep TColon p; Some (LIdle, p')
  else if Ascii.eqb c "," then p' ← pstep TComma p; Some (LIdle, p')
  else if Ascii.eqb c dquote then Some (LString [], p)
  else if Ascii.eqb c "-" then Some (LNumber NMinus (String c ""), p)
  else if Ascii.eqb c "0" then Some (LNumber NZero (String c ""), p)
  else if is_digit c then Some (LNumber NInt (String c ""), p)
  else if is_lower c then Some (LWord (String c ""), p)
  else None.

Definition lstep (c : ascii) (l : lstate) (p : pstate) : option (lstate * pstate) :=
  match l with
  | LIdle => idle c p
  | LNumber st lit =>
      match nstep st c with
      | Some st' => Some (LNumber st' (lit +:+ String c ""), p)
      | None =>
          if naccept st then p' ← pstep (TScalar (VNum lit)) p; idle c p'
          else None
      end
  | LWord w =>
      if is_lower c then Some (LWord (w +:+ String c ""), p)
      else v ← word w; p' ← pstep (TScalar v) p; idle c p'
  | LString acc =>
      if Ascii.eqb c dquote then
        p' ← pstep (TScalar (VStr (decode (rev acc)))) p; Some (LIdle, p')
      else if Ascii.eqb c "\" then Some (LEscape acc, p)
      else if (N_of_ascii c <? 32)%N then None
      else Some (LString (inl c :: acc), p)
  | LEscape acc =>
      if Ascii.eqb c "u" then Some (LHex acc 0 0%N, p)
      else e ← escape c; Some (LString (inl e :: acc), p)
  | LHex acc k n =>
      d ← hex_digit c;
      let n' := (16 * n + d)%N in
      if (k =? 3)%nat then Some (LString (inr n' :: acc), p)
      else Some (LHex acc (S k) n', p)
  end.

(** At the end of the text a number or a word may still be open. *)
Definition lfinish (l : lstate) (p : pstate) : option pstate :=
  match l with
  | LIdle => Some p
  | LNumber st lit => if naccept st then pstep (TScalar (VNum lit)) p else None
  | LWord w => v ← word w; pstep (TScalar v) p
  | _ => None
  end.

Fixpoint run (l : lstate) (p : pstate) (s : string) : option value :=
  match s with
  | String c s' => '(l', p') ← lstep c l p; run l' p' s'
  | EmptyString =>
      p' ← lfinish l p;
      match p' with (MDone v, _) => Some v | _ => None end
  end.

(** [JSON.parse(s)]; [None] is a thrown [SyntaxError]. *)
Definition parse (s : string) : option value := run LIdle (MValue, []) s.

End JSON.

(** ** html5/runtime/index.js: the instance registry *)

Module Runtime.

Definition CR : ascii := ascii_of_N 13.
Definition LF : ascii := ascii_of_N 10.

(** [const versionRegExp = /^\/\/ *(\{[^\}]*\}) *\r?\n/] *)
Definition versionRegExp : list RegExp.atom :=
  [ RegExp.One (RegExp.Chr "/"); RegExp.One (RegExp.Chr "/");
    RegExp.Star (RegExp.Chr " ");
    RegExp.GroupOpen;
    RegExp.One (RegExp.Chr "{");
    RegExp.Star (RegExp.NotChr "}");
    RegExp.One (RegExp.Chr "}");
    RegExp.GroupClose;
    RegExp.Star (RegExp.Chr " ");
    RegExp.Opt (RegExp.Chr CR);
    RegExp.One (RegExp.Chr LF) ].

(** [checkVersion(code)]: [info] stays [undefined] when the pattern does
    not match and when [JSON.parse] throws. *)
Definition checkVersion (code : string) : value :=
  match RegExp.exec versionRegExp code with
  | Some group1 =>
      match JSON.parse group1 with
      | Some info => info
      | None => VUndefined
      end
  | None => VUndefined
  end.

(** A registry entry: the object stored in [instanceMap]. *)
Abbreviation info := (props value).

(** A method of a framework.  It runs on the framework's own world [W],
    returns or throws, and has no access to [instanceMap]. *)
Definition method (W : Type) : Type := list value → M W value.

(** A framework: a table of methods by name.  [prepareInstance] builds
    the initial shell of an instance, an object. *)
Record Framework (W : Type) : Type := {
  fw_prepareInstance : option (list value → M W info);
  fw_methods : gmap string (method W)
}.
Arguments fw_prepareInstance {W} _.
Arguments fw_methods {W} _.

(** A call of a framework method, as the registry makes it. *)
Record call : Type := Call {
  call_framework : string;
  call_method : string;
  call_args : list value
}.

(** The store: [instanceMap], the frameworks' world, and the calls made
    into the frameworks so far, oldest first. *)
Record Store (W : Type) : Type := {
  instanceMap : gmap string info;
  world : W;
  calls : list call
}.
Arguments instanceMap {W} _.
Arguments world {W} _.
Arguments calls {W} _.

Section Registry.

Context {W : Type}.

(** [import frameworks from './config']: the registered frameworks by
    name, fixed once the runtime is loaded. *)
Variable frameworks : gmap string (Framework W).

(** The string form of a number or of an object as a property key
    (floating-point formatting, user-defined [toString]). *)
Variable ToString_other : value → string.

(** The property key [o[v]] reads. *)
Definition to_key (v : value) : string :=
  match v with
  | VStr s => s
  | VUndefined => "undefined"
  | VNull => "null"
  | VBool true => "true"
  | VBool false => "false"
  | _ => ToString_other v
  end.

(** [frameworks[name]] is truthy. *)
Definition registered (name : string) : bool :=
  match frameworks !! name with Some _ => true | None => false end.

Definition set_instance (id : string) (i : info) : M (Store W) unit :=
  modify (λ st, {| instanceMap := <[id := i]> (instanceMap st);
                   world := world st; calls := calls st |}).

Definition delete_instance (id : string) : M (Store W) unit :=
  modify (λ st, {| instanceMap := delete id (instanceMap st);
                   world := world st; calls := calls st |}).

Definition log_call (c : call) : M (Store W) unit :=
  modify (λ st, {| instanceMap := instanceMap st;
                   world := world st; calls := calls st ++ [c] |}).

(** Run framework code on the world. *)
Definition in_world {A} (m : M W A) : M (Store W) A :=
  λ st,
    match m (world st) with
    | Ret a w => Ret a {| instanceMap := instanceMap st; world := w; calls := calls st |}
    | Throw e w => Throw e {| instanceMap := instanceMap st; world := w; calls := calls st |}
    end.

(** [frameworks[name][methodName](...args)]: a [TypeError] when the
    framework or the method is missing. *)
Definition invoke (name methodName : string) (args : list value)
  : M (Store W) value :=
  match frameworks !! name with
  | Some fw =>
      match fw_methods fw !! methodName with
      | Some m => log_call (Call name methodName args);; in_world (m args)
      | None => throw TypeError
      end
  | None => throw TypeError
  end.

(** [export function prepareInstance (id, type, config, data)];
    [type] is [None] when the argument is [undefined]. *)
Definition prepareInstance (id : string) (type : option string)
  (config data : value) : M (Store W) unit :=
  let type := match type with
              | Some t => if String.eqb t "" then "Weex" else t
              | None => "Weex"
              end in
  match frameworks !! type ≫= fw_prepareInstance with
  | Some prepare =>
      log_call (Call type "prepareInstance" [VStr id; config; data]);;
      shell ← in_world (prepare [VStr id; config; data]);
      set_instance id (set_prop "framework" (VStr type) shell)
  | None => set_instance id []
  end.

Definition invalid_instance_id (id : string) : value :=
  VError ("invalid instance id " +:+ quoted id).

(** [function createInstance (id, code, config, data)]; [config] is [None]
    when the argument is [undefined] or [null].  [checkVersion(code) || {}]
    is an object: what [checkVersion] returns is [undefined] or an object
    (lemma [checkVersion_object] below).  The [console.debug] line has no
    effect on the store. *)
Definition createInstance (id code : string) (config : option (props value))
  (data : value) : M (Store W) value :=
  i ← gets (λ st, instanceMap st !! id);
  match i with
  | None =>
      let i := match checkVersion code with VObject i => i | _ => [] end in
      let i := if registered (to_key (get_field "framework" i))
               then i else set_prop "framework" (VStr "Weex") i in
      set_instance id i;;
      let config := default [] config in
      let config := set_prop "bundleVersion" (get_field "version" i) config in
      invoke (to_key (get_field "framework" i)) "createInstance"
        [VStr id; VStr code; VObject config; data]
  | Some _ => mret (invalid_instance_id id)
  end.

(** The function [genInstance(methodName)] stores in [methods]. *)
Definition genInstance (methodName : string) (id : string)
  (rest : list value) : M (Store W) value :=
  i ← gets (λ st, instanceMap st !! id);
  (if String.eqb methodName "destroyInstance"
   then delete_instance id else mret tt);;
  match i with
  | Some i =>
      let name := to_key (get_field "framework" i) in
      if registered name
      then invoke name methodName (VStr id :: rest)
      else mret (invalid_instance_id id)
  | None => mret (invalid_instance_id id)
  end.

(** [['destroyInstance', 'refreshInstance', 'receiveTasks', 'getRoot'].forEach(genInstance)] *)
Definition destroyInstance := genInstance "destroyInstance".
Definition refreshInstance := genInstance "refreshInstance".
Definition receiveTasks := genInstance "receiveTasks".
Definition getRoot := genInstance "getRoot".

End Registry.
End Runtime.

(** ** html5/default/app/ctrl.js: instance controls *)

Module Ctrl.

(** *** Host built-ins used by [normalize] *)

Definition lower_ascii (c : ascii) : ascii :=
  let n := N_of_ascii c in
  if ((65 <=? n) && (n <=? 90))%N then ascii_of_N (n + 32) else c.

Fixpoint toLowerCase (s : string) : string :=
  match s with
  | EmptyString => EmptyString
  | String c s' => String (lower_ascii c) (toLowerCase s')
  end.

(** Modelled from the spec: [typof], imported from ['../util'], which is
    not among the sources.  The spec has normalize classify a value once
    into undefined, null, regular expression, date, primitive, ordered
    sequence, keyed mapping, function or anything else; [typof] is the
    lower-cased class tag of the value, and a host object of another
    class carries its tag. *)
Definition typof (v : value) : string :=
  match v with
  | VUndefined => "undefined"
  | VNull => "null"
  | VBool _ => "boolean"
  | VNum _ => "number"
  | VStr _ => "string"
  | VRegExp _ _ => "regexp"
  | VDate _ => "date"
  | VArray _ => "array"
  | VObject _ | VElement _ => "object"
  | VFunction _ => "function"
  | VError _ => "error"
  | VOther cls => toLowerCase cls
  end.

(** [Date.prototype.toISOString]: the proleptic Gregorian date of a day
    number counted from 1970-01-01. *)
Definition civil_from_days (days : Z) : Z * Z * Z :=
  let z := days + 719468 in
  let era := z `div` 146097 in
  let doe := z - era * 146097 in
  let yoe := (doe - doe `div` 1460 + doe `div` 36524 - doe `div` 146096) `div` 365 in
  let doy := doe - (365 * yoe + yoe `div` 4 - yoe `div` 100) in
  let mp := (5 * doy + 2) `div` 153 in
  let d := doy - (153 * mp + 2) `div` 5 + 1 in
  let m := if mp <? 10 then mp + 3 else mp - 9 in
  let y := yoe + era * 400 + (if m <=? 2 then 1 else 0) in
  (y, m, d).

(** [n] in decimal, padded with zeros to [width] digits. *)
Definition pad (width : nat) (n : Z) : string :=
  let s := pretty n in
  String.concat "" (replicate (width - String.length s) "0") +:+ s.

Definition year_string (y : Z) : string :=
  if (0 <=? y) && (y <=? 9999) then pad 4 y
  else (if y <? 0 then "-" else "+") +:+ pad 6 (Z.abs y).

Definition toISOString (t : Z) : string :=
  let ms := t `mod` 86400000 in
  let '(y, m, d) := civil_from_days (t `div` 86400000) in
  year_string y +:+ "-" +:+ pad 2 m +:+ "-" +:+ pad 2 d +:+ "T" +:+
  pad 2 (ms `div` 3600000) +:+ ":" +:+ pad 2 ((ms `div` 60000) `mod` 60) +:+ ":" +:+
  pad 2 ((ms `div` 1000) `mod` 60) +:+ "." +:+ pad 3 (ms `mod` 1000) +:+ "Z".

(** [RegExp.prototype.toString] *)
Definition RegExp_toString (source flags : string) : string :=
  "/" +:+ source +:+ "/" +:+ flags.

(** *** The app and its collaborators *)

(** A task for the renderer. *)
Record Task : Type := {
  task_module : string;
  task_method : string;
  task_args : list value
}.

(** [app.doc.listener] and [app.doc], as far as ctrl.js reads and writes
    them. *)
Record Listener : Type := { updates : list Task }.
Record Document : Type := { listener : option Listener }.

(** What code outside ctrl.js does when it is called: it returns or
    throws, changes its own world, and may leave updates for the
    document listener. *)
Inductive completion : Type :=
  | Normal (v : value)
  | Abrupt (e : value).

Definition reaction (Dom : Type) : Type := Dom → completion * Dom * list Task.

(** The collaborators of ctrl.js.  [Dom] is their world: the virtual DOM,
    the view model, the differ's pending work. *)
Class Host (Dom : Type) : Type := {
  (** [JSON.stringify(v)]; [None] is [undefined] *)
  JSON_stringify : value → option string;
  (** [app.differ.flush()] *)
  differ_flush : reaction Dom;
  (** the body of the closure [f], applied to one argument *)
  apply_function : nat → value → reaction Dom;
  (** [app.doc.getRef(ref)]; [None] when the result is falsy *)
  doc_getRef : Dom → string → option string;
  (** [app.doc.fireEvent(el, type, e, domChanges)] *)
  doc_fireEvent : string → string → value → value → reaction Dom;
  (** what [renderer.sendTasks(id, tasks, callbackId)] returns *)
  sendTasks : string → list Task → string → value
}.

(** The calls ctrl.js makes into its collaborators. *)
Inductive event : Type :=
  | EDifferFlush
  | EApply (f : nat) (data : value)
  | EDocFireEvent (el type : string) (e domChanges : value)
  | EUpdateFinish
  | ESendTasks (id : string) (tasks : list Task) (callbackId : string).

(** The app.  [uid] is the counter behind callback ids: a JavaScript
    number that starts at 0 and is only ever incremented, taken here as
    an integer.  [callbacks] is the object [app.callbacks]: its property
    keys are strings, and [app.callbacks[n]] for a number [n] reads the
    key that is the decimal form of [n].  [doc] is [None] when [app.doc]
    is [null].  [dom] is the world of the collaborators and [trace] the
    calls made into them so far, oldest first. *)
Record App (Dom : Type) : Type := {
  id : string;
  uid : Z;
  callbacks : gmap string value;
  doc : option Document;
  dom : Dom;
  trace : list event
}.
Arguments id {Dom} _.
Arguments uid {Dom} _.
Arguments callbacks {Dom} _.
Arguments doc {Dom} _.
Arguments dom {Dom} _.
Arguments trace {Dom} _.

Section Controls.

Context {Dom : Type} {H : Host Dom}.

Definition log (ev : event) : M (App Dom) unit :=
  modify (λ a, {| id := id a; uid := uid a; callbacks := callbacks a;
                  doc := doc a; dom := dom a; trace := trace a ++ [ev] |}).

Definition set_doc (d : option Document) (a : App Dom) : App Dom :=
  {| id := id a; uid := uid a; callbacks := callbacks a;
     doc := d; dom := dom a; trace := trace a |}.

Definition set_dom (w : Dom) (a : App Dom) : App Dom :=
  {| id := id a; uid := uid a; callbacks := callbacks a;
     doc := doc a; dom := w; trace := trace a |}.

(** Updates left by a collaborator go to the listener's queue. *)
Definition push_updates (ts : list Task) (d : option Document) : option Document :=
  match d with
  | Some {| listener := Some l |} =>
      Some {| listener := Some {| updates := updates l ++ ts |} |}
  | _ => d
  end.

Definition react (r : reaction Dom) : M (App Dom) value :=
  λ a, let '(c, w, ts) := r (dom a) in
       let a' := set_doc (push_updates ts (doc a)) (set_dom w a) in
       match c with
       | Normal v => Ret v a'
       | Abrupt e => Throw e a'
       end.

(** A call into a collaborator. *)
Definition collab (ev : event) (r : reaction Dom) : M (App Dom) value :=
  log ev;; react r.

(** [function normalize (v, app)] *)
Definition normalize (v : value) : M (App Dom) value :=
  let type := typof v in
  if String.eqb type "undefined" || String.eqb type "null" then
    mret (VStr "")
  else if String.eqb type "regexp" then
    match v with
    | VRegExp source flags => mret (VStr (RegExp_toString source flags))
    | VOther cls => mret (VStr ("[object " +:+ cls +:+ "]"))
    | _ => throw TypeError
    end
  else if String.eqb type "date" then
    match v with
    | VDate t => mret (VStr (toISOString t))
    | _ => throw TypeError
    end
  else if String.eqb type "number" || String.eqb type "string"
          || String.eqb type "boolean" || String.eqb type "array"
          || String.eqb type "object" then
    match v with
    | VElement ref => mret (VStr ref)
    | _ => mret v
    end
  else if String.eqb type "function" then
    modify (λ a, {| id := id a; uid := uid a + 1;
                    callbacks := <[pretty (uid a + 1) := v]> (callbacks a);
                    doc := doc a; dom := dom a; trace := trace a |});;
    u ← gets uid;
    mret (VStr (pretty u))
  else
    mret (match JSON_stringify v with Some s => VStr s | None => VUndefined end).

(** [task.args = task.args.map(arg => normalize(arg, app))] *)
Definition normalize_task (t : Task) : M (App Dom) Task :=
  args ← mapM normalize (task_args t);
  mret {| task_module := task_module t; task_method := task_method t;
          task_args := args |}.

(** The [tasks] argument of [callTasks]: an array of tasks or one task. *)
Inductive tasks_arg : Type :=
  | TaskList (ts : list Task)
  | OneTask (t : Task).

(** [export function callTasks (app, tasks)] *)
Definition callTasks (tasks : tasks_arg) : M (App Dom) value :=
  let tasks := match tasks with TaskList ts => ts | OneTask t => [t] end in
  tasks ← mapM normalize_task tasks;
  i ← gets id;
  log (ESendTasks i tasks "-1");;
  mret (sendTasks i tasks "-1").

(** [export function updateActions (app)] *)
Definition updateActions : M (App Dom) value :=
  collab EDifferFlush differ_flush;;
  d ← gets doc;
  tasks ← match d with
          | Some {| listener := Some l |} =>
              match updates l with
              | [] => mret []
              | ts =>
                  modify (set_doc (Some {| listener := Some {| updates := [] |} |}));;
                  mret ts
              end
          | _ => mret []
          end;
  match tasks with
  | [] => mret VUndefined
  | _ => callTasks (TaskList tasks)
  end.

(** [app.doc.listener.updateFinish()] *)
Definition updateFinish : M (App Dom) unit :=
  d ← gets doc;
  match d with
  | Some {| listener := Some _ |} => log EUpdateFinish
  | _ => throw TypeError
  end.

Definition invalid_callback_id (callbackId : string) : value :=
  VError ("invalid callback id " +:+ quoted callbackId).

Definition set_callback (k : string) (v : value) : M (App Dom) unit :=
  modify (λ a, {| id := id a; uid := uid a;
                  callbacks := <[k := v]> (callbacks a);
                  doc := doc a; dom := dom a; trace := trace a |}).

(** [export function callback (app, callbackId, data, ifKeepAlive)] *)
Definition callback (callbackId : string) (data ifKeepAlive : value)
  : M (App Dom) value :=
  cb ← gets (λ a, default VUndefined (callbacks a !! callbackId));
  match cb with
  | VFunction f =>
      collab (EApply f data) (apply_function f data);;
      (if is_undefined ifKeepAlive || is_false ifKeepAlive
       then set_callback callbackId VUndefined else mret tt);;
      updateActions;;
      updateFinish;;
      mret VUndefined
  | _ => mret (invalid_callback_id callbackId)
  end.

(** The [ref] argument of [fireEvent]: one reference or an array. *)
Inductive ref_arg : Type :=
  | Ref (ref : string)
  | Refs (refs : list string).

(** [Array.prototype.some] *)
Fixpoint some {St A : Type} (f : A → M St bool) (l : list A) : M St bool :=
  match l with
  | [] => mret false
  | x :: l' => b ← f x; if b : bool then mret true else some f l'
  end.

Definition invalid_element_reference (ref : string) : value :=
  VError ("invalid element reference " +:+ quoted ref).

(** [app.fireEvent], the app's own method, called with one reference. *)
Variable app_fireEvent : string → string → value → M (App Dom) value.

(** [export function fireEvent (app, ref, type, e, domChanges)] *)
Definition fireEvent (ref : ref_arg) (type : string) (e domChanges : value)
  : M (App Dom) value :=
  match ref with
  | Refs refs =>
      some (λ ref, r ← app_fireEvent ref type e; mret (negb (is_false r))) refs;;
      mret VUndefined
  | Ref ref =>
      d ← gets doc;
      match d with
      | Some _ =>
          el ← gets (λ a, doc_getRef (dom a) ref);
          match el with
          | Some el =>
              result ← collab (EDocFireEvent el type e domChanges)
                              (doc_fireEvent el type e domChanges);
              updateActions;;
              updateFinish;;
              mret result
          | None => mret (invalid_element_reference ref)
          end
      | None => throw TypeError
      end
  end.

End Controls.
End Ctrl.


(** * Properties *)

(** ** Properties of objects *)

Lemma get_set_prop_eq {V} k (v : V) o : get_prop k (set_prop k v o) = Some v.
Proof.
  induction o as [|[k' v'] o IH]; simpl.
  - by rewrite String.eqb_refl.
  - destruct (String.eqb k k') eqn:E; simpl.
    + by rewrite String.eqb_refl.
    + by rewrite E.
Qed.

Lemma get_set_prop_ne {V} k k' (v : V) o :
  k ≠ k' → get_prop k' (set_prop k v o) = get_prop k' o.
Proof.
  intros Hne. induction o as [|[k0 v0] o IH]; simpl.
  - destruct (String.eqb k' k) eqn:E; [apply String.eqb_eq in E; congruence|done].
  - destruct (String.eqb k k0) eqn:E; simpl.
    + apply String.eqb_eq in E. subst k0.
      destruct (String.eqb k' k) eqn:E'; [apply String.eqb_eq in E'; congruence|done].
    + by rewrite IH.
Qed.

(** ** The bundle-header sniffer *)

Section Sniffer.

Import RegExp Runtime.

(** The longest prefix of [s] in the class [k], and what follows it. *)
Fixpoint take_class (k : cclass) (s : string) : string :=
  match s with
  | String c s' => if in_class k c then String c (take_class k s') else ""
  | EmptyString => ""
  end.

Fixpoint drop_class (k : cclass) (s : string) : string :=
  match s with
  | String c s' => if in_class k c then drop_class k s' else s
  | EmptyString => ""
  end.

Fixpoint feed_all (t : string) (g : group) : group :=
  match t with
  | String c t' => feed_all t' (feed c g)
  | EmptyString => g
  end.

(** [s] consists of characters of the class [k]. *)
Fixpoint all_class (k : cclass) (s : string) : bool :=
  match s with
  | String c s' => in_class k c && all_class k s'
  | EmptyString => true
  end.

(** [s] does not start with a character of the class [k]. *)
Definition stops (k : cclass) (s : string) : bool :=
  match s with
  | String c _ => negb (in_class k c)
  | EmptyString => true
  end.

Fixpoint spaces (n : nat) : string :=
  match n with
  | O => ""
  | S n' => String " " (spaces n')
  end.

(** The line break the pattern ends with: LF or CR LF. *)
Definition eol_LF : string := String LF "".
Definition eol_CRLF : string := String CR (String LF "").

(** The shape of a text [versionRegExp] matches, and the group it
    captures: two slashes, spaces, a brace group without a closing brace
    inside, spaces, a line break. *)
Definition has_header (code grp : string) : Prop :=
  ∃ (n m : nat) (body eol rest : string),
    code = "//" +:+ spaces n +:+ "{" +:+ body +:+ "}" +:+ spaces m +:+ eol +:+ rest
    ∧ all_class (NotChr "}") body = true
    ∧ (eol = eol_LF ∨ eol = eol_CRLF)
    ∧ grp = "{" +:+ body +:+ "}".

Lemma append_cons c t d : String c t +:+ d = String c (t +:+ d).
Proof. reflexivity. Qed.

Lemma append_nil d : "" +:+ d = d.
Proof. reflexivity. Qed.

Lemma append_nil_r t : t +:+ "" = t.
Proof. induction t as [|c t IH]; [done|]. rewrite append_cons. by f_equal. Qed.

Lemma append_assoc t u v : (t +:+ u) +:+ v = t +:+ (u +:+ v).
Proof.
  induction t as [|c t IH]; [done|]. rewrite !append_cons. by f_equal.
Qed.

Lemma exec_star_cons k r c s g :
  exec_from (Star k :: r) (String c s) g =
  if in_class k c then
    match exec_from (Star k :: r) s (feed c g) with
    | Some m => Some m
    | None => exec_from r (String c s) g
    end
  else exec_from r (String c s) g.
Proof. reflexivity. Qed.

Lemma exec_star_nil k r g :
  exec_from (Star k :: r) "" g = exec_from r "" g.
Proof. reflexivity. Qed.

(** When the rest of the pattern cannot start with a character of the
    class, giving characters back never helps: the repetition takes the
    longest prefix. *)
Lemma exec_star_greedy k r :
  (∀ c s g, in_class k c = true → exec_from r (String c s) g = None) →
  ∀ s g, exec_from (Star k :: r) s g =
         exec_from r (drop_class k s) (feed_all (take_class k s) g).
Proof.
  intros Hr s. induction s as [|c s IH]; intros g.
  - reflexivity.
  - rewrite exec_star_cons. simpl.
    destruct (in_class k c) eqn:Hc; [|reflexivity].
    rewrite IH. simpl.
    destruct (exec_from r _ _) eqn:E; [reflexivity|].
    by apply Hr.
Qed.

Lemma take_drop_class k s : s = take_class k s +:+ drop_class k s.
Proof.
  induction s as [|c s IH]; cbn [take_class drop_class]; [done|].
  destruct (in_class k c); [|done].
  rewrite append_cons. by f_equal.
Qed.

Lemma all_class_take k s : all_class k (take_class k s) = true.
Proof.
  induction s as [|c s IH]; simpl; [done|].
  destruct (in_class k c) eqn:E; simpl; [by rewrite E|done].
Qed.

Lemma stops_drop k s : stops k (drop_class k s) = true.
Proof.
  induction s as [|c s IH]; simpl; [done|].
  destruct (in_class k c) eqn:E; simpl; [done|by rewrite E].
Qed.

Lemma take_class_app k t s :
  all_class k t = true → stops k s = true → take_class k (t +:+ s) = t.
Proof.
  intros Ht Hs. induction t as [|c t IH]; simpl in *.
  - destruct s as [|c s]; simpl in *; [done|].
    by destruct (in_class k c).
  - apply andb_true_iff in Ht as [-> Ht]. by rewrite IH.
Qed.

Lemma drop_class_app k t s :
  all_class k t = true → stops k s = true → drop_class k (t +:+ s) = s.
Proof.
  intros Ht Hs. induction t as [|c t IH]; simpl in *.
  - destruct s as [|c s]; simpl in *; [done|].
    by destruct (in_class k c).
  - apply andb_true_iff in Ht as [-> Ht]. by rewrite IH.
Qed.

Lemma all_class_spaces n : all_class (Chr " ") (spaces n) = true.
Proof. induction n as [|n IH]; [done|]. exact IH. Qed.


Lemma all_class_is_spaces s :
  all_class (Chr " ") s = true → s = spaces (String.length s).
Proof.
  induction s as [|c s IH]; simpl; [done|].
  intros [Hc Hs]%andb_true_iff. apply Ascii.eqb_eq in Hc. subst c.
  rewrite (IH Hs) at 1. reflexivity.
Qed.

Lemma feed_all_closed t c : feed_all t (Group None c) = Group None c.
Proof. induction t as [|a t IH]; simpl; [done|]. exact IH. Qed.

Lemma feed_all_opened t u c :
  feed_all t (Group (Some u) c) = Group (Some (u +:+ t)) c.
Proof.
  revert u. induction t as [|a t IH]; intros u; simpl.
  - by rewrite append_nil_r.
  - unfold feed at 1. simpl. rewrite IH. f_equal. f_equal.
    by rewrite append_assoc.
Qed.

(** What [versionRegExp.exec(code)] computes, written out. *)
Definition header (code : string) : option string :=
  match code with
  | String c1 (String c2 s1) =>
      if Ascii.eqb c1 "/" && Ascii.eqb c2 "/" then
        match drop_class (Chr " ") s1 with
        | String c3 s3 =>
            if Ascii.eqb c3 "{" then
              match drop_class (NotChr "}") s3 with
              | String _ s5 =>
                  let grp := "{" +:+ take_class (NotChr "}") s3 +:+ "}" in
                  match drop_class (Chr " ") s5 with
                  | String c6 s6 =>
                      if Ascii.eqb c6 LF then Some grp
                      else if Ascii.eqb c6 CR then
                        match s6 with
                        | String c7 _ => if Ascii.eqb c7 LF then Some grp else None
                        | EmptyString => None
                        end
                      else None
                  | EmptyString => None
                  end
              | EmptyString => None
              end
            else None
        | EmptyString => None
        end
      else None
  | _ => None
  end.

Lemma exec_One k r s g :
  exec_from (One k :: r) s g =
  match s with
  | String c s' => if in_class k c then exec_from r s' (feed c g) else None
  | EmptyString => None
  end.
Proof. reflexivity. Qed.

Lemma exec_GroupOpen r s g :
  exec_from (GroupOpen :: r) s g = exec_from r s (Group (Some "") (closed g)).
Proof. reflexivity. Qed.

Lemma exec_GroupClose r s g :
  exec_from (GroupClose :: r) s g = exec_from r s (Group None (opened g)).
Proof. reflexivity. Qed.

(** The tail of the pattern: an optional CR and a LF. *)
Lemma exec_eol s g :
  exec_from [Opt (Chr CR); One (Chr LF)] s g =
  match s with
  | String c s' =>
      if Ascii.eqb c LF then Some (feed c g)
      else if Ascii.eqb c CR then
        match s' with
        | String c' _ => if Ascii.eqb c' LF then Some (feed c' (feed c g)) else None
        | EmptyString => None
        end
      else None
  | EmptyString => None
  end.
Proof.
  destruct s as [|c s]; [reflexivity|].
  cbn [exec_from in_class].
  destruct (Ascii.eqb c CR) eqn:E.
  - apply Ascii.eqb_eq in E. subst c.
    replace (Ascii.eqb CR LF) with false by reflexivity.
    destruct s as [|c' s]; [reflexivity|].
    by destruct (Ascii.eqb c' LF).
  - by destruct (Ascii.eqb c LF).
Qed.

Lemma exec_versionRegExp code :
  RegExp.exec versionRegExp code = header code.
Proof.
  unfold RegExp.exec, versionRegExp, header.
  destruct code as [|c1 [|c2 s1]]; try reflexivity.
  { rewrite exec_One. cbn [in_class]. rewrite exec_One.
    by destruct (Ascii.eqb c1 "/"). }
  rewrite exec_One. cbn [in_class].
  destruct (Ascii.eqb c1 "/"); [|reflexivity].
  rewrite exec_One. cbn [in_class].
  destruct (Ascii.eqb c2 "/"); [|reflexivity].
  cbn [andb]. unfold feed. cbn [opened].
  rewrite exec_star_greedy.
  2:{ intros c s g Hc. rewrite exec_GroupOpen, exec_One.
      apply Ascii.eqb_eq in Hc. by subst c. }
  rewrite feed_all_closed, exec_GroupOpen, exec_One. cbn [closed].
  destruct (drop_class (Chr " ") s1) as [|c3 s3]; [reflexivity|].
  cbn [in_class].
  destruct (Ascii.eqb c3 "{") eqn:E3; [|reflexivity].
  apply Ascii.eqb_eq in E3. subst c3.
  rewrite exec_star_greedy.
  2:{ intros c s g Hc. rewrite exec_One. cbn [in_class] in *.
      by apply negb_true_iff in Hc as ->. }
  unfold feed at 1. cbn [opened closed]. rewrite append_nil.
  rewrite feed_all_opened, exec_One.
  pose proof (stops_drop (NotChr "}") s3) as Hstop.
  destruct (drop_class (NotChr "}") s3) as [|c4 s5]; [reflexivity|].
  cbn [stops in_class] in Hstop. rewrite negb_involutive in Hstop.
  cbn [in_class]. rewrite Hstop.
  apply Ascii.eqb_eq in Hstop. subst c4.
  unfold feed at 1. cbn [opened closed].
  rewrite exec_GroupClose. cbn [opened].
  rewrite exec_star_greedy.
  2:{ intros c s g Hc. rewrite exec_eol.
      apply Ascii.eqb_eq in Hc. by subst c. }
  rewrite feed_all_closed, exec_eol, append_assoc.
  destruct (drop_class (Chr " ") s5) as [|c6 s6]; [reflexivity|].
  destruct (Ascii.eqb c6 LF); [reflexivity|].
  destruct (Ascii.eqb c6 CR); [|reflexivity].
  destruct s6 as [|c7 s7]; [reflexivity|].
  by destruct (Ascii.eqb c7 LF).
Qed.

Lemma header_has_header code grp :
  header code = Some grp → has_header code grp.
Proof.
  unfold header. intros Hh.
  destruct code as [|c1 [|c2 s1]]; try discriminate.
  destruct (Ascii.eqb c1 "/") eqn:E1; [|discriminate].
  destruct (Ascii.eqb c2 "/") eqn:E2; [|discriminate].
  apply Ascii.eqb_eq in E1, E2. subst c1 c2. cbn [andb] in Hh.
  pose proof (take_drop_class (Chr " ") s1) as H1.
  destruct (drop_class (Chr " ") s1) as [|c3 s3]; [discriminate|].
  destruct (Ascii.eqb c3 "{") eqn:E3; [|discriminate].
  apply Ascii.eqb_eq in E3. subst c3.
  pose proof (take_drop_class (NotChr "}") s3) as H3.
  pose proof (stops_drop (NotChr "}") s3) as Hstop.
  destruct (drop_class (NotChr "}") s3) as [|c4 s5]; [discriminate|].
  cbn [stops in_class] in Hstop. rewrite negb_involutive in Hstop.
  apply Ascii.eqb_eq in Hstop. subst c4.
  pose proof (take_drop_class (Chr " ") s5) as H5.
  assert (∃ eol rest, drop_class (Chr " ") s5 = eol +:+ rest
                      ∧ (eol = eol_LF ∨ eol = eol_CRLF)
                      ∧ grp = "{" +:+ take_class (NotChr "}") s3 +:+ "}")
    as (eol & rest & Hd & Heol & Hgrp).
  { destruct (drop_class (Chr " ") s5) as [|c6 s6]; [discriminate|].
    destruct (Ascii.eqb c6 LF) eqn:E6.
    - apply Ascii.eqb_eq in E6. subst c6.
      exists eol_LF, s6. split_and!; [done|by left|congruence].
    - destruct (Ascii.eqb c6 CR) eqn:E6'; [|discriminate].
      apply Ascii.eqb_eq in E6'. subst c6.
      destruct s6 as [|c7 s7]; [discriminate|].
      destruct (Ascii.eqb c7 LF) eqn:E7; [|discriminate].
      apply Ascii.eqb_eq in E7. subst c7.
      exists eol_CRLF, s7. split_and!; [done|by right|congruence]. }
  exists (String.length (take_class (Chr " ") s1)),
         (String.length (take_class (Chr " ") s5)),
         (take_class (NotChr "}") s3), eol, rest.
  split_and!; [|apply all_class_take|done|done].
  rewrite <- !all_class_is_spaces by apply all_class_take.
  rewrite <- Hd, <- H5.
  change ("}" +:+ s5) with (String "}" s5). rewrite <- H3.
  change ("{" +:+ s3) with (String "{" s3). rewrite <- H1.
  reflexivity.
Qed.

Lemma has_header_header code grp :
  has_header code grp → header code = Some grp.
Proof.
  intros (n & m & body & eol & rest & -> & Hbody & Heol & ->).
  unfold header. rewrite !append_cons, !append_nil.
  replace (Ascii.eqb "/" "/") with true by reflexivity. cbn [andb].
  rewrite drop_class_app; [|apply all_class_spaces|reflexivity].
  replace (Ascii.eqb "{" "{") with true by reflexivity.
  rewrite drop_class_app; [|done|reflexivity].
  rewrite take_class_app; [|done|reflexivity].
  rewrite drop_class_app; [|apply all_class_spaces|by destruct Heol as [-> | ->]].
  by destruct Heol as [-> | ->].
Qed.

(** *** [JSON.parse] of a text that starts with an opening brace *)

Import JSON.

Definition is_object (v : value) : Prop :=
  match v with VObject _ => True | _ => False end.

Definition object_frame (f : frame) : Prop :=
  match f with InArray _ => False | _ => True end.

(** The outermost container under construction is an object. *)
Fixpoint object_bottom (stk : list frame) : Prop :=
  match stk with
  | [] => False
  | [f] => object_frame f
  | _ :: st => object_bottom st
  end.

Definition object_state (p : pstate) : Prop :=
  match p with
  | (MDone v, _) => is_object v
  | (_, stk) => object_bottom stk
  end.

Lemma object_bottom_push f stk : object_bottom stk → object_bottom (f :: stk).
Proof. destruct stk; [done|]. done. Qed.

Lemma deliver_object v stk p :
  object_bottom stk → deliver v stk = Some p → object_state p.
Proof.
  destruct stk as [|[acc|acc|acc k] st]; simpl; intros Hb Hd; simplify_eq; simpl.
  - done.
  - destruct st; [done|]. done.
  - destruct st; [done|]. done.
Qed.

Lemma pstep_object t p p' :
  object_state p → pstep t p = Some p' → object_state p'.
Proof.
  destruct p as [m stk]. unfold pstep.
  assert (Hstart : object_bottom stk → start_value t stk = Some p' → object_state p').
  { intros Hb. unfold start_value.
    destruct t; intros Hs; simplify_eq;
      try exact (object_bottom_push _ _ Hb); by eapply deliver_object. }
  assert (Harr : object_bottom stk → close_array stk = Some p' → object_state p').
  { intros Hb. unfold close_array.
    destruct stk as [|[acc|acc|acc k] st]; try done.
    destruct st as [|f st]; [done|]. by apply deliver_object. }
  assert (Hobj : object_bottom stk → close_object stk = Some p' → object_state p').
  { intros Hb. unfold close_object.
    destruct stk as [|[acc|acc|acc k] st]; try done.
    destruct st as [|f st]; [simpl; by intros [= <-]|]. by apply deliver_object. }
  assert (Hkey : object_bottom stk → read_key t stk = Some p' → object_state p').
  { intros Hb. unfold read_key.
    destruct t as [| | | | | |[]]; try done.
    destruct stk as [|[acc|acc|acc k] st]; try done.
    intros [= <-]. simpl. destruct st; done. }
  destruct m; simpl; intros Hb Hs; try done; eauto.
  - destruct t; eauto.
  - destruct t; eauto.
  - destruct t; by simplify_eq.
  - destruct t; eauto; try done;
      destruct stk as [|[acc|acc|acc k] st]; by simplify_eq.
Qed.

Lemma idle_object c p l' p' :
  object_state p → idle c p = Some (l', p') → object_state p'.
Proof.
  unfold idle. intros Hp Hi.
  repeat case_match; simplify_option_eq; eauto using pstep_object.
Qed.

Lemma lstep_object c l p l' p' :
  object_state p → lstep c l p = Some (l', p') → object_state p'.
Proof.
  unfold lstep. intros Hp Hl.
  destruct l; repeat case_match; simplify_option_eq;
    eauto using pstep_object, idle_object.
Qed.

Lemma lfinish_object l p p' :
  object_state p → lfinish l p = Some p' → object_state p'.
Proof.
  unfold lfinish. intros Hp Hl.
  destruct l; repeat case_match; simplify_option_eq;
    eauto using pstep_object.
Qed.

Lemma run_object s l p v :
  object_state p → run l p s = Some v → is_object v.
Proof.
  revert l p. induction s as [|c s IH]; intros l p Hp; simpl.
  - intros Hr. destruct (lfinish l p) as [[m stk]|] eqn:E; [|done].
    apply (lfinish_object _ _ _ Hp) in E.
    simpl in Hr. destruct m; by simplify_eq.
  - intros Hr. destruct (lstep c l p) as [[l' p']|] eqn:E; [|done].
    simpl in Hr. eauto using lstep_object.
Qed.

Lemma parse_brace s v : JSON.parse (String "{" s) = Some v → is_object v.
Proof.
  unfold JSON.parse. simpl. apply run_object. simpl. exact I.
Qed.

(** What [checkVersion] returns is [undefined] or an object. *)
Lemma checkVersion_object code :
  checkVersion code = VUndefined ∨ is_object (checkVersion code).
Proof.
  unfold checkVersion. rewrite exec_versionRegExp.
  destruct (header code) as [grp|] eqn:Hh; [|by left].
  apply header_has_header in Hh as (n & m & body & eol & rest & _ & _ & _ & ->).
  rewrite append_cons, append_nil.
  destruct (JSON.parse _) as [v|] eqn:Hv; [|by left].
  right. by eapply parse_brace.
Qed.

(** The text up to and including its first line feed. *)
Fixpoint first_line (code : string) : string :=
  match code with
  | String c s => if Ascii.eqb c LF then String c "" else String c (first_line s)
  | EmptyString => ""
  end.

Definition nl : string := String LF "".

(** The JSON member ["k":"v"]. *)
Definition member (k v : string) : string := quoted k +:+ ":" +:+ quoted v.

(** The header line [// {"framework":"Foo","version":"1.0"}]. *)
Definition header_Foo : string :=
  "// {" +:+ member "framework" "Foo" +:+ "," +:+ member "version" "1.0" +:+ "}".



End Sniffer.

(** ** The instance registry *)

Section RegistryFacts.

Import Runtime.

Context {W : Type}.
Variable frameworks : gmap string (Framework W).
Variable ToString_other : value → string.

Abbreviation to_key := (to_key ToString_other).
Abbreviation registered := (registered frameworks).
Abbreviation invoke := (invoke frameworks).
Abbreviation prepareInstance := (prepareInstance frameworks).
Abbreviation createInstance := (createInstance frameworks ToString_other).
Abbreviation destroyInstance := (destroyInstance frameworks ToString_other).

(** Framework code leaves [instanceMap] alone. *)
Lemma instanceMap_in_world {A} (m : M W A) (st : Store W) :
  instanceMap (final (in_world m st)) = instanceMap st.
Proof. unfold in_world. by destruct (m (world st)). Qed.

Lemma instanceMap_invoke name methodName args (st : Store W) :
  instanceMap (final (invoke name methodName args st)) = instanceMap st.
Proof.
  unfold Runtime.invoke.
  destruct (frameworks !! name) as [fw|]; [|done].
  destruct (fw_methods fw !! methodName) as [m|]; [|done].
  unfold mbind, M_bind, bind, log_call, modify.
  by rewrite instanceMap_in_world.
Qed.

Lemma invoke_registered name methodName args fw m (st : Store W) :
  frameworks !! name = Some fw →
  fw_methods fw !! methodName = Some m →
  invoke name methodName args st =
  in_world (m args)
    {| instanceMap := instanceMap st; world := world st;
       calls := calls st ++ [Call name methodName args] |}.
Proof. unfold Runtime.invoke. by intros -> ->. Qed.

(** The store after [delete instanceMap[id]]. *)
Definition removed (id : string) (st : Store W) : Store W :=
  {| instanceMap := delete id (instanceMap st);
     world := world st; calls := calls st |}.


(** The store after [instanceMap[id] = i]. *)
Definition stored (id : string) (i : info) (st : Store W) : Store W :=
  {| instanceMap := <[id := i]> (instanceMap st);
     world := world st; calls := calls st |}.

(** C3, as amended.  When ['UnknownType'] names no framework that exposes
    [prepareInstance], [prepareInstance(id, 'UnknownType', config, data)]
    returns normally and stores the empty placeholder for [id], over any
    entry [id] had before.  A later [createInstance] for the same [id]
    finds the placeholder: it does not sniff the bundle, calls no
    framework, leaves the store as it is and returns the
    invalid-instance-id error. *)
Theorem prepareInstance_unknown_type (id : string) (config data : value)
  (code : string) (config' : option (props value)) (data' : value)
  (st : Store W) :
  frameworks !! "UnknownType" ≫= fw_prepareInstance = None →
  prepareInstance id (Some "UnknownType") config data st = Ret tt (stored id [] st)
  ∧ instanceMap (stored id [] st) !! id = Some []
  ∧ createInstance id code config' data' (stored id [] st)
    = Ret (invalid_instance_id id) (stored id [] st).
Proof.
  intros Hfw. split_and!.
  - unfold Runtime.prepareInstance. cbn [String.eqb Ascii.eqb Bool.eqb].
    by rewrite Hfw.
  - apply lookup_insert_eq.
  - unfold Runtime.createInstance, mbind, M_bind, bind, gets.
    cbn [stored instanceMap]. by rewrite lookup_insert_eq.
Qed.

(** The framework a bundle resolves to: the sniffed one when it is
    registered, ['Weex'] otherwise. *)
Definition sniffed (code : string) : info :=
  match checkVersion code with VObject i => i | _ => [] end.

Definition resolved (code : string) : string :=
  let name := to_key (get_field "framework" (sniffed code)) in
  if registered name then name else "Weex".

(** The entry [createInstance] stores and the arguments it hands on. *)
Definition entry (code : string) : info :=
  if registered (to_key (get_field "framework" (sniffed code)))
  then sniffed code
  else set_prop "framework" (VStr "Weex") (sniffed code).

Definition create_args (id code : string) (config : option (props value))
  (data : value) : list value :=
  [VStr id; VStr code;
   VObject (set_prop "bundleVersion" (get_field "version" (sniffed code))
              (default [] config));
   data].

Lemma entry_framework code :
  to_key (get_field "framework" (entry code)) = resolved code.
Proof.
  unfold entry, resolved.
  destruct (registered _); [done|].
  unfold get_field. by rewrite get_set_prop_eq.
Qed.

Lemma entry_version code :
  get_field "version" (entry code) = get_field "version" (sniffed code).
Proof.
  unfold entry. destruct (registered _); [done|].
  unfold get_field. by rewrite get_set_prop_ne.
Qed.


End RegistryFacts.

(** *** A registry with two frameworks *)

Module Demo.

Import Runtime.

(** A framework method that counts its calls in the world. *)
Definition count_call : method nat := λ _, modify S;; mret VUndefined.

Definition framework : Framework nat :=
  {| fw_prepareInstance := None;
     fw_methods := {[ "createInstance" := count_call;
                      "destroyInstance" := count_call ]} |}.

Definition frameworks : gmap string (Framework nat) :=
  {[ "Weex" := framework; "Foo" := framework ]}.

Definition ToString_other (v : value) : string := "[object Object]".

Definition empty_store : Store nat :=
  {| instanceMap := ∅; world := 0%nat; calls := [] |}.

(** A bundle with a header for the framework Foo. *)
Definition bundle : string :=
  header_Foo +:+ String LF "code".

(** The store after [prepareInstance('x', 'UnknownType', {}, {})]. *)
Definition prepared : Store nat :=
  final (prepareInstance frameworks "x" (Some "UnknownType")
           (VObject []) (VObject []) empty_store).

End Demo.

Lemma prepareInstance_unknown_type_witness :
  Demo.frameworks !! "UnknownType" ≫= Runtime.fw_prepareInstance = None
  ∧ Runtime.prepareInstance Demo.frameworks "x" (Some "UnknownType")
      (VObject []) (VObject []) Demo.empty_store
    = Ret tt (stored "x" [] Demo.empty_store)
  ∧ Runtime.instanceMap (stored "x" [] Demo.empty_store) !! "x" = Some []
  ∧ Runtime.createInstance Demo.frameworks Demo.ToString_other "x" Demo.bundle
      None VUndefined (stored "x" [] Demo.empty_store)
    = Ret (Runtime.invalid_instance_id "x") (stored "x" [] Demo.empty_store).
Proof.
  split; [reflexivity|].
  apply (prepareInstance_unknown_type Demo.frameworks Demo.ToString_other).
  reflexivity.
Defined.

(** C3 as stated fails: after [prepareInstance('x', 'UnknownType', ...)] a
    [createInstance('x', bundle)] with a header for the registered
    framework Foo returns the invalid-instance-id error, calls no
    framework and leaves the placeholder in place; the same bundle under
    a fresh id is resolved by sniffing and reaches Foo. *)
Lemma createInstance_after_prepare_no_sniffing :
  let create id :=
    Runtime.createInstance Demo.frameworks Demo.ToString_other id Demo.bundle
      None VUndefined Demo.prepared in
  create "x" = Ret (Runtime.invalid_instance_id "x") Demo.prepared
  ∧ Runtime.calls (final (create "x")) = []
  ∧ Runtime.instanceMap (final (create "x")) !! "x" = Some []
  ∧ Runtime.calls (final (create "y"))
    = [Runtime.Call "Foo" "createInstance"
         [VStr "y"; VStr Demo.bundle;
          VObject [("bundleVersion", VStr "1.0")]; VUndefined]].
Proof. vm_compute. done. Qed.

(** ** Instance controls *)

Section CtrlFacts.

Import Ctrl.

Context {Dom : Type} {H : Host Dom}.

Implicit Types (a : App Dom) (v : value) (k : string).

(** *** Computations that keep a relation between stores *)

Definition preserves {A} (R : relation (App Dom)) (m : M (App Dom) A) : Prop :=
  ∀ a, R a (final (m a)).

Section Preserves.

Context (R : relation (App Dom)) `{!PreOrder R}.

Lemma preserves_ret {A} (x : A) : preserves R (mret x).
Proof. intros a. simpl. reflexivity. Qed.

Lemma preserves_throw {A} e : preserves R (throw (A := A) e).
Proof. intros a. simpl. reflexivity. Qed.

Lemma preserves_gets {A} (f : App Dom → A) : preserves R (gets f).
Proof. intros a. simpl. reflexivity. Qed.

Lemma preserves_bind {A B} (m : M (App Dom) A) (f : A → M (App Dom) B) :
  preserves R m → (∀ x, preserves R (f x)) → preserves R (m ≫= f).
Proof.
  intros Hm Hf a. specialize (Hm a).
  unfold mbind, M_bind, bind. destruct (m a) as [x a'|e a']; simpl in *.
  - etrans; [exact Hm|]. apply Hf.
  - exact Hm.
Qed.

Lemma preserves_mapM {A B} (f : A → M (App Dom) B) (l : list A) :
  (∀ x, preserves R (f x)) → preserves R (mapM f l).
Proof.
  intros Hf. induction l as [|x l IH]; simpl.
  - apply preserves_ret.
  - apply preserves_bind; [apply Hf|]. intros y.
    apply preserves_bind; [apply IH|]. intros ys. apply preserves_ret.
Qed.

End Preserves.

(** *** Callback ids *)

(** Events in which ctrl.js does not run user code. *)
Definition quiet (ev : event) : Prop :=
  match ev with
  | EApply _ _ | EDocFireEvent _ _ _ _ => False
  | _ => True
  end.

(** From [a] to [a']: the counter only grows, the callback table changes
    only at the ids allocated in between, and no user code is called. *)
Definition extends a a' : Prop :=
  id a' = id a
  ∧ uid a ≤ uid a'
  ∧ (∀ k, (∀ n, uid a < n ≤ uid a' → k ≠ pretty n) →
          callbacks a' !! k = callbacks a !! k)
  ∧ ∃ evs, trace a' = trace a ++ evs ∧ Forall quiet evs.

Global Instance extends_preorder : PreOrder extends.
Proof.
  split.
  - intros a. split_and!; [done|lia|done|]. exists []. by rewrite app_nil_r.
  - intros a1 a2 a3 (Hi1 & Hu1 & Hc1 & evs1 & Ht1 & Hq1)
                    (Hi2 & Hu2 & Hc2 & evs2 & Ht2 & Hq2).
    split_and!; [congruence|lia| |].
    + intros k Hk. rewrite Hc2, Hc1; [done| |]; intros n Hn; apply Hk; lia.
    + exists (evs1 ++ evs2). rewrite Ht2, Ht1, app_assoc.
      split; [done|]. by apply Forall_app.
Qed.

(** The ids above the counter are unused. *)
Definition fresh a : Prop := ∀ n, uid a < n → callbacks a !! pretty n = None.

(** An app with an empty callback table, as a new app has. *)
Lemma fresh_empty a : callbacks a = ∅ → fresh a.
Proof. intros Hc n _. by rewrite Hc. Qed.

Lemma extends_fresh a a' : extends a a' → fresh a → fresh a'.
Proof.
  intros (_ & Hu & Hc & _) Hf n Hn.
  rewrite Hc; [apply Hf; lia|].
  intros n' Hn' Heq%(inj pretty). lia.
Qed.

(** A used id is not above the counter, so it outlives any extension. *)
Lemma extends_lookup a a' k :
  extends a a' → fresh a → is_Some (callbacks a !! k) →
  callbacks a' !! k = callbacks a !! k.
Proof.
  intros (_ & _ & Hc & _) Hf [v Hv]. apply Hc.
  intros n Hn ->. rewrite Hf in Hv; [done|lia].
Qed.

Lemma extends_log ev : quiet ev → preserves extends (log ev).
Proof.
  intros Hq a. unfold extends; cbn. split_and!; [done|lia|done|].
  exists [ev]. split; [done|]. by constructor.
Qed.

Lemma extends_react r : preserves extends (react r).
Proof.
  intros a. unfold react. destruct (r (dom a)) as [[c w] ts].
  assert (extends a (set_doc (push_updates ts (doc a)) (set_dom w a))).
  { unfold extends; cbn. split_and!; [done|lia|done|].
    exists []. by rewrite app_nil_r. }
  by destruct c.
Qed.

Lemma extends_modify_doc f : preserves extends (modify (set_doc f)).
Proof.
  intros a. unfold extends; cbn. split_and!; [done|lia|done|].
  exists []. by rewrite app_nil_r.
Qed.

Lemma extends_normalize v : preserves extends (normalize v).
Proof.
  unfold normalize.
  repeat (case_match; try apply preserves_ret; try apply preserves_throw;
          try apply _).
  apply preserves_bind; [apply _| |].
  - intros a. unfold extends; cbn. split_and!; [done|lia| |].
    + intros k Hk. apply lookup_insert_ne. intros <-. eapply Hk; [|done]. lia.
    + exists []. by rewrite app_nil_r.
  - intros _. apply preserves_bind; [apply _|apply preserves_gets; apply _|].
    intros u. apply preserves_ret; apply _.
Qed.

Lemma extends_normalize_task t : preserves extends (normalize_task t).
Proof.
  unfold normalize_task. apply preserves_bind; [apply _| |].
  - apply preserves_mapM; [apply _|]. apply extends_normalize.
  - intros args. apply preserves_ret; apply _.
Qed.

Lemma extends_callTasks tasks : preserves extends (callTasks tasks).
Proof.
  unfold callTasks. apply preserves_bind; [apply _| |].
  - apply preserves_mapM; [apply _|]. apply extends_normalize_task.
  - intros ts. apply preserves_bind; [apply _|apply preserves_gets; apply _|].
    intros i. apply preserves_bind; [apply _|by apply extends_log|].
    intros _. apply preserves_ret; apply _.
Qed.

Lemma extends_updateActions : preserves extends updateActions.
Proof.
  unfold updateActions. apply preserves_bind; [apply _| |].
  - unfold collab. apply preserves_bind; [apply _|by apply extends_log|].
    intros _. apply extends_react.
  - intros _. apply preserves_bind; [apply _|apply preserves_gets; apply _|].
    intros d. apply preserves_bind; [apply _| |].
    + repeat (case_match; try (apply preserves_ret; apply _)).
      apply preserves_bind; [apply _|apply extends_modify_doc|].
      intros _. apply preserves_ret; apply _.
    + intros ts. destruct ts; [apply preserves_ret; apply _|].
      apply extends_callTasks.
Qed.

Lemma extends_updateFinish : preserves extends updateFinish.
Proof.
  unfold updateFinish.
  apply preserves_bind; [apply _|apply preserves_gets; apply _|].
  intros d. repeat (case_match; try (apply preserves_throw; apply _)).
  by apply extends_log.
Qed.

(** *** normalize *)

(** The store after [app.callbacks[++app.uid] = v]. *)
Definition registered_callback v a : App Dom :=
  {| id := id a; uid := uid a + 1;
     callbacks := <[pretty (uid a + 1) := v]> (callbacks a);
     doc := doc a; dom := dom a; trace := trace a |}.

(** The class tags [normalize] has a case for. *)
Definition known_tags : list string :=
  ["undefined"; "null"; "regexp"; "date"; "number"; "string"; "boolean";
   "array"; "object"; "function"].

Lemma eqb_false_of_not_elem (t : string) (l : list string) (x : string) :
  t ∉ l → x ∈ l → String.eqb t x = false.
Proof. intros Ht Hx. apply String.eqb_neq. by intros ->. Qed.

Lemma normalize_function v a :
  typof v = "function" →
  normalize v a = Ret (VStr (pretty (uid a + 1))) (registered_callback v a).
Proof. unfold normalize. by intros ->. Qed.


(** *** updateActions *)

(** [normalize] leaves the document alone and calls no collaborator. *)
Definition same_doc a a' : Prop :=
  doc a' = doc a ∧ trace a' = trace a ∧ id a' = id a.

Global Instance same_doc_preorder : PreOrder same_doc.
Proof.
  split; unfold same_doc; [done|].
  intros a1 a2 a3 (? & ? & ?) (? & ? & ?). split_and!; congruence.
Qed.

Lemma same_doc_normalize v : preserves same_doc (normalize v).
Proof.
  unfold normalize.
  repeat (case_match; try apply preserves_ret; try apply preserves_throw;
          try apply _).
  apply preserves_bind; [apply _|done|].
  intros _. apply preserves_bind; [apply _|apply preserves_gets; apply _|].
  intros u. apply preserves_ret; apply _.
Qed.

Lemma same_doc_normalize_tasks ts : preserves same_doc (mapM normalize_task ts).
Proof.
  apply preserves_mapM; [apply _|]. intros t. unfold normalize_task.
  apply preserves_bind; [apply _| |].
  - apply preserves_mapM; [apply _|]. apply same_doc_normalize.
  - intros args. apply preserves_ret; apply _.
Qed.

(** The listener's pending update queue; empty when there is no document
    or no listener. *)
Definition pending a : list Task :=
  match doc a with
  | Some {| listener := Some l |} => updates l
  | _ => []
  end.

Definition logged (ev : event) a : App Dom :=
  {| id := id a; uid := uid a; callbacks := callbacks a;
     doc := doc a; dom := dom a; trace := trace a ++ [ev] |}.

(** The store after a collaborator reacted with world [w] and updates [ts]. *)
Definition reacted (ev : event) (w : Dom) (ts : list Task) a : App Dom :=
  set_doc (push_updates ts (doc a)) (set_dom w (logged ev a)).

(** The store after [app.doc.listener.updates = []]. *)
Definition drained a : App Dom :=
  set_doc (Some {| listener := Some {| updates := [] |} |}) a.

Lemma collab_eq ev r a :
  collab ev r a =
  match r (dom a) with
  | (Normal v, w, ts) => Ret v (reacted ev w ts a)
  | (Abrupt e, w, ts) => Throw e (reacted ev w ts a)
  end.
Proof.
  unfold collab, mbind, M_bind, bind, log, modify, react. cbn.
  by destruct (r (dom a)) as [[[v|e] w] ts].
Qed.

Lemma callTasks_eq ts a :
  callTasks (TaskList ts) a =
  match mapM normalize_task ts a with
  | Ret tasks a2 =>
      Ret (sendTasks (id a2) tasks "-1") (logged (ESendTasks (id a2) tasks "-1") a2)
  | Throw e a2 => Throw e a2
  end.
Proof.
  unfold callTasks, mbind, M_bind, bind.
  by destruct (mapM normalize_task ts a).
Qed.

(** What [updateActions] does once the differ has flushed. *)
Lemma updateActions_flushed a v w ts :
  differ_flush (dom a) = (Normal v, w, ts) →
  updateActions a =
  match pending (reacted EDifferFlush w ts a) with
  | [] => Ret VUndefined (reacted EDifferFlush w ts a)
  | tasks => callTasks (TaskList tasks) (drained (reacted EDifferFlush w ts a))
  end.
Proof.
  intros Hd. unfold updateActions.
  unfold mbind at 1. unfold M_bind, bind. rewrite collab_eq, Hd.
  set (a1 := reacted EDifferFlush w ts a).
  unfold pending, mbind, M_bind, bind, gets.
  destruct (doc a1) as [[[[[|t l]]|]]|]; reflexivity.
Qed.

(** The differ's flush is the first thing [updateActions] does. *)
Lemma updateActions_trace a :
  ∃ evs, trace (final (updateActions a)) = trace a ++ EDifferFlush :: evs.
Proof.
  unfold updateActions, mbind at 1, M_bind, bind. rewrite collab_eq.
  destruct (differ_flush (dom a)) as [[[v|e] w] ts]; cbn [final].
  - match goal with |- context [final (?m _)] =>
      assert (preserves extends m) as Hm end.
    { apply preserves_bind; [apply _|apply preserves_gets; apply _|].
      intros d. apply preserves_bind; [apply _| |].
      - repeat (case_match; try (apply preserves_ret; apply _)).
        apply preserves_bind; [apply _|apply extends_modify_doc|].
        intros _. apply preserves_ret; apply _.
      - intros l. destruct l; [apply preserves_ret; apply _|].
        apply extends_callTasks. }
    destruct (Hm (reacted EDifferFlush w ts a)) as (_ & _ & _ & evs & -> & _).
    exists evs. cbn. by rewrite <- app_assoc.
  - exists []. reflexivity.
Qed.

Lemma updateFinish_ret a u a' :
  updateFinish a = Ret u a' → a' = logged EUpdateFinish a.
Proof.
  unfold updateFinish, mbind, M_bind, bind, gets.
  destruct (doc a) as [[[l|]]|]; [|done..]. by intros [= _ <-].
Qed.

(** C9.  [updateActions(app)] first calls the differ's flush.  When the
    listener's queue is then empty (or there is no document or listener)
    nothing is sent and the store is otherwise as the flush left it.
    When it is not empty the queue is cleared, the arguments of the
    pending tasks are normalized, and the batch goes to the transport as
    exactly [sendTasks(app.id, tasks, '-1')], once; the queue is empty
    afterwards. *)
Theorem updateActions_spec a :
  (∃ evs, trace (final (updateActions a)) = trace a ++ EDifferFlush :: evs)
  ∧ (∀ e w ts, differ_flush (dom a) = (Abrupt e, w, ts) →
       updateActions a = Throw e (reacted EDifferFlush w ts a))
  ∧ (∀ v w ts, differ_flush (dom a) = (Normal v, w, ts) →
       let a1 := reacted EDifferFlush w ts a in
       (pending a1 = [] → updateActions a = Ret VUndefined a1)
       ∧ (pending a1 ≠ [] →
          ∀ tasks a2,
            mapM normalize_task (pending a1) (drained a1) = Ret tasks a2 →
            updateActions a =
              Ret (sendTasks (id a) tasks "-1")
                  (logged (ESendTasks (id a) tasks "-1") a2)
            ∧ pending (logged (ESendTasks (id a) tasks "-1") a2) = []
            ∧ trace (logged (ESendTasks (id a) tasks "-1") a2)
              = trace a ++ [EDifferFlush; ESendTasks (id a) tasks "-1"])).
Proof.
  split_and!.
  - apply updateActions_trace.
  - intros e w ts Hd. unfold updateActions, mbind at 1, M_bind, bind.
    by rewrite collab_eq, Hd.
  - intros v w ts Hd a1. rewrite (updateActions_flushed _ _ _ _ Hd). fold a1.
    split; [by intros ->|].
    intros Hp tasks a2 Hn.
    destruct (pending a1) as [|t l] eqn:Ep; [done|].
    rewrite callTasks_eq, Hn.
    pose proof (same_doc_normalize_tasks (t :: l) (drained a1))
      as (Hdoc & Htr & Hid).
    rewrite Hn in Hdoc, Hid, Htr. cbn [final] in Hdoc, Hid, Htr.
    rewrite Hid. cbn [drained set_doc id a1 reacted set_dom logged].
    split_and!; [done| |].
    + unfold pending, logged. cbn [doc]. by rewrite Hdoc.
    + unfold logged. cbn [trace]. rewrite Htr. cbn.
      by rewrite <- app_assoc.
Qed.

(** *** callback *)

(** The store after [app.callbacks[k] = v]. *)
Definition with_callback k v a : App Dom :=
  {| id := id a; uid := uid a; callbacks := <[k := v]> (callbacks a);
     doc := doc a; dom := dom a; trace := trace a |}.

(** [typeof ifKeepAlive === 'undefined' || ifKeepAlive === false] *)
Definition single_shot (ifKeepAlive : value) : bool :=
  is_undefined ifKeepAlive || is_false ifKeepAlive.

(** How [callback] and [fireEvent] end: flush, signal, return. *)
Definition finish (result : value) : M (App Dom) value :=
  updateActions;; updateFinish;; mret result.

Lemma extends_finish result : preserves extends (finish result).
Proof.
  unfold finish.
  apply preserves_bind; [apply _|apply extends_updateActions|]. intros _.
  apply preserves_bind; [apply _|apply extends_updateFinish|]. intros _.
  apply preserves_ret; apply _.
Qed.

Lemma callback_not_function k data ka a :
  is_function (default VUndefined (callbacks a !! k)) = false →
  callback k data ka a = Ret (invalid_callback_id k) a.
Proof.
  unfold callback, mbind, M_bind, bind, gets.
  by destruct (default VUndefined (callbacks a !! k)).
Qed.

Lemma callback_function k data ka a f :
  callbacks a !! k = Some (VFunction f) →
  callback k data ka a =
  match apply_function f data (dom a) with
  | (Normal _, w, ts) =>
      finish VUndefined
        (if single_shot ka
         then with_callback k VUndefined (reacted (EApply f data) w ts a)
         else reacted (EApply f data) w ts a)
  | (Abrupt e, w, ts) => Throw e (reacted (EApply f data) w ts a)
  end.
Proof.
  intros Hk. unfold callback, mbind at 1, M_bind, bind, gets.
  rewrite Hk. cbn [default from_option Datatypes.id].
  unfold mbind at 1. unfold M_bind, bind. rewrite collab_eq.
  destruct (apply_function f data (dom a)) as [[[v|e] w] ts]; [|done].
  fold (single_shot ka). unfold mbind at 1. unfold M_bind, bind.
  by destruct (single_shot ka).
Qed.

Lemma fresh_with_callback k v a :
  fresh a → is_Some (callbacks a !! k) → fresh (with_callback k v a).
Proof.
  intros Hf [v' Hk] n Hn. cbn.
  rewrite lookup_insert_ne; [by apply Hf|].
  intros ->. rewrite Hf in Hk; done.
Qed.

Lemma fresh_reacted ev w ts a : fresh a → fresh (reacted ev w ts a).
Proof. intros Hf n Hn. by apply Hf. Qed.


Lemma finish_trace result a :
  ∃ evs, trace (final (finish result a)) = trace a ++ EDifferFlush :: evs.
Proof.
  destruct (updateActions_trace a) as [evs Hevs].
  unfold finish, mbind at 1, M_bind, bind.
  destruct (updateActions a) as [u a1|x a1]; cbn [final] in *; [|by exists evs].
  assert (preserves extends
            (updateFinish;; mret result : M (App Dom) value)) as Hm.
  { apply preserves_bind; [apply _|apply extends_updateFinish|].
    intros _. apply preserves_ret; apply _. }
  destruct (Hm a1) as (_ & _ & _ & evs' & Htr & _).
  exists (evs ++ evs'). etrans; [exact Htr|].
  rewrite Hevs. by rewrite <- app_assoc.
Qed.

Lemma finish_ret result a r a' :
  finish result a = Ret r a' →
  r = result
  ∧ ∃ evs, trace a' = trace a ++ EDifferFlush :: evs ++ [EUpdateFinish].
Proof.
  destruct (updateActions_trace a) as [evs Hevs].
  unfold finish, mbind at 1, M_bind, bind.
  destruct (updateActions a) as [u a1|x a1]; cbn [final] in *; [|done].
  unfold mbind, M_bind, bind.
  destruct (updateFinish a1) as [[] a2|x a2] eqn:Hf; [|done].
  apply updateFinish_ret in Hf as ->. intros [= <- <-].
  split; [done|]. exists evs. cbn. rewrite Hevs. by rewrite <- app_assoc.
Qed.

(** *** The lifetime of an app *)

(** One operation of ctrl.js on the app.  ([fireEvent] with an array of
    references is a sequence of calls of [app.fireEvent] with one
    reference each.) *)
Inductive step : relation (App Dom) :=
  | step_normalize v a : step a (final (normalize v a))
  | step_callTasks tasks a : step a (final (callTasks tasks a))
  | step_updateActions a : step a (final (updateActions a))
  | step_callback k data ka a : step a (final (callback k data ka a))
  | step_fireEvent dispatch ref type e domChanges a :
      step a (final (fireEvent dispatch (Ref ref) type e domChanges a)).

(** The counter does not go down and unused ids stay above it. *)
Definition grows a a' : Prop := uid a ≤ uid a' ∧ (fresh a → fresh a').

Global Instance grows_preorder : PreOrder grows.
Proof.
  split.
  - intros a. split; [lia|done].
  - intros a1 a2 a3 [Hu1 Hf1] [Hu2 Hf2]. split; [lia|auto].
Qed.

Lemma extends_grows a a' : extends a a' → grows a a'.
Proof.
  intros Hext. split; [apply Hext|]. by apply extends_fresh.
Qed.

Lemma grows_reacted ev w ts a : grows a (reacted ev w ts a).
Proof. split; [cbn; lia|]. apply fresh_reacted. Qed.

Lemma fireEvent_ref_eq dispatch ref type e dc a :
  fireEvent dispatch (Ref ref) type e dc a =
  match doc a with
  | None => Throw TypeError a
  | Some _ =>
      match doc_getRef (dom a) ref with
      | None => Ret (invalid_element_reference ref) a
      | Some el =>
          match doc_fireEvent el type e dc (dom a) with
          | (Normal result, w, ts) =>
              finish result (reacted (EDocFireEvent el type e dc) w ts a)
          | (Abrupt x, w, ts) =>
              Throw x (reacted (EDocFireEvent el type e dc) w ts a)
          end
      end
  end.
Proof.
  unfold fireEvent, mbind at 1, M_bind, bind, gets.
  destruct (doc a) as [d|]; [|done].
  unfold mbind at 1. unfold M_bind, bind.
  destruct (doc_getRef (dom a) ref) as [el|]; [|done].
  unfold mbind at 1. unfold M_bind, bind. rewrite collab_eq.
  by destruct (doc_fireEvent el type e dc (dom a)) as [[[v|x] w] ts].
Qed.

Lemma step_grows a a' : step a a' → grows a a'.
Proof.
  destruct 1 as [v a|tasks a|a|k data ka a|dispatch ref type e dc a].
  - apply extends_grows, extends_normalize.
  - apply extends_grows, extends_callTasks.
  - apply extends_grows, extends_updateActions.
  - destruct (default VUndefined (callbacks a !! k)) as [| | | | | | | | | |f| |] eqn:Hk;
      try (rewrite callback_not_function; [reflexivity|by rewrite Hk]).
    assert (Hk' : callbacks a !! k = Some (VFunction f)).
    { destruct (callbacks a !! k); by simplify_eq/=. }
    rewrite (callback_function _ _ _ _ _ Hk').
    destruct (apply_function f data (dom a)) as [[[v|x] w] ts];
      [|apply grows_reacted].
    etrans; [|apply extends_grows, extends_finish].
    destruct (single_shot ka); [|apply grows_reacted].
    split; [cbn; lia|]. intros Hf.
    apply fresh_with_callback; [by apply fresh_reacted|]. cbn. by rewrite Hk'.
  - rewrite fireEvent_ref_eq.
    destruct (doc a); [|reflexivity].
    destruct (doc_getRef (dom a) ref) as [el|]; [|reflexivity].
    destruct (doc_fireEvent el type e dc (dom a)) as [[[v|x] w] ts];
      [|apply grows_reacted].
    etrans; [apply grows_reacted|]. apply extends_grows, extends_finish.
Qed.

Lemma steps_grow a a' : rtc step a a' → grows a a'.
Proof.
  induction 1 as [a|a1 a2 a3 Hs _ IH]; [reflexivity|].
  etrans; [by apply step_grows|done].
Qed.


(** *** fireEvent *)

Section FireEvent.

(** [app.fireEvent], the app's dispatch of an event to one reference. *)
Variable app_fireEvent : string → string → value → M (App Dom) value.

Abbreviation fireEvent := (Ctrl.fireEvent app_fireEvent).

(** The candidates [refs], tried in order from the store [a], all gave
    exactly [false], and left the store [a']. *)
Inductive declined (type : string) (e : value)
  : list string → App Dom → App Dom → Prop :=
  | declined_nil a : declined type e [] a a
  | declined_cons ref refs a a1 a' :
      app_fireEvent ref type e a = Ret (VBool false) a1 →
      declined type e refs a1 a' →
      declined type e (ref :: refs) a a'.

Lemma fireEvent_refs_nil type e dc a :
  fireEvent (Refs []) type e dc a = Ret VUndefined a.
Proof. reflexivity. Qed.

Lemma fireEvent_refs_cons ref refs type e dc a :
  fireEvent (Refs (ref :: refs)) type e dc a =
  match app_fireEvent ref type e a with
  | Ret r a1 =>
      if is_false r then fireEvent (Refs refs) type e dc a1
      else Ret VUndefined a1
  | Throw x a1 => Throw x a1
  end.
Proof.
  unfold Ctrl.fireEvent. cbn [some].
  unfold mbind, M_bind, bind, mret, M_ret, ret.
  destruct (app_fireEvent ref type e a) as [r a1|x a1]; [|done].
  by destruct (is_false r).
Qed.

Lemma fireEvent_refs_declined type e dc pre rest a a1 :
  declined type e pre a a1 →
  fireEvent (Refs (pre ++ rest)) type e dc a
  = fireEvent (Refs rest) type e dc a1.
Proof.
  induction 1 as [a|ref refs a a1 a' Hd _ IH]; [done|].
  cbn [app]. rewrite fireEvent_refs_cons, Hd. exact IH.
Qed.

(** C7.  With an array of candidate references [fireEvent] hands the
    event to the app's dispatch for each candidate in order and stops at
    the first one whose result is not exactly [false]: when the
    candidates before [ref] gave [false] and [ref] gives something else,
    the store is left as the dispatch to [ref] left it, whatever
    candidates follow; when all give [false], all are tried.  For
    [[A, B, C]] with [false] from A and [true] from B, A and then B are
    dispatched and C is not. *)
Theorem fireEvent_refs_stops (type : string) (e dc : value) :
  (∀ pre ref post a a1 a2 r,
     declined type e pre a a1 →
     app_fireEvent ref type e a1 = Ret r a2 →
     is_false r = false →
     fireEvent (Refs (pre ++ ref :: post)) type e dc a = Ret VUndefined a2)
  ∧ (∀ refs a a1,
       declined type e refs a a1 →
       fireEvent (Refs refs) type e dc a = Ret VUndefined a1)
  ∧ (∀ A B C a a1 a2,
       app_fireEvent A type e a = Ret (VBool false) a1 →
       app_fireEvent B type e a1 = Ret (VBool true) a2 →
       fireEvent (Refs [A; B; C]) type e dc a = Ret VUndefined a2).
Proof.
  split_and!.
  - intros pre ref post a a1 a2 r Hpre Hr Hnf.
    rewrite (fireEvent_refs_declined _ _ _ _ _ _ _ Hpre).
    by rewrite fireEvent_refs_cons, Hr, Hnf.
  - intros refs a a1 Hd.
    rewrite <- (app_nil_r refs), (fireEvent_refs_declined _ _ _ _ _ _ _ Hd).
    reflexivity.
  - intros A B C a a1 a2 HA HB.
    by rewrite fireEvent_refs_cons, HA, fireEvent_refs_cons, HB.
Qed.

Lemma fireEvent_refs_returns refs type e dc a r a' :
  fireEvent (Refs refs) type e dc a = Ret r a' → r = VUndefined.
Proof.
  revert a. induction refs as [|ref refs IH]; intros a.
  - by intros [= <- _].
  - rewrite fireEvent_refs_cons.
    destruct (app_fireEvent ref type e a) as [r1 a1|]; [|done].
    destruct (is_false r1); [apply IH|by intros [= <- _]].
Qed.

Lemma fireEvent_refs_final refs type e dc a :
  (∀ ref a, final (app_fireEvent ref type e a) = a) →
  final (fireEvent (Refs refs) type e dc a) = a.
Proof.
  intros Hd. induction refs as [|ref refs IH]; [done|].
  rewrite fireEvent_refs_cons. specialize (Hd ref a).
  destruct (app_fireEvent ref type e a) as [r1 a1|x a1]; cbn in Hd; subst a1;
    [|done].
  by destruct (is_false r1).
Qed.

(** C10.  With an array of references [fireEvent] returns [undefined]
    whenever it returns: the result of the dispatch that stopped the
    loop is dropped.  The array branch itself calls no collaborator: the
    store it leaves is the one the dispatches leave (when the dispatch
    does not change the store, neither does the branch).  With one
    reference that resolves to an element, the handler's result is what
    [fireEvent] returns, after the flush and the update-finished signal;
    with one that does not, the error is returned without a flush. *)
Theorem fireEvent_refs_result (type : string) (e dc : value) a :
  (∀ refs r a', fireEvent (Refs refs) type e dc a = Ret r a' → r = VUndefined)
  ∧ (∀ ref refs a1 r,
       app_fireEvent ref type e a = Ret r a1 → is_false r = false →
       fireEvent (Refs (ref :: refs)) type e dc a = Ret VUndefined a1)
  ∧ ((∀ ref a, final (app_fireEvent ref type e a) = a) →
     ∀ refs, final (fireEvent (Refs refs) type e dc a) = a)
  ∧ (∀ ref d el result w ts,
       doc a = Some d →
       doc_getRef (dom a) ref = Some el →
       doc_fireEvent el type e dc (dom a) = (Normal result, w, ts) →
       let a1 := reacted (EDocFireEvent el type e dc) w ts a in
       fireEvent (Ref ref) type e dc a = finish result a1
       ∧ (∃ evs, trace (final (fireEvent (Ref ref) type e dc a))
                 = trace a ++ EDocFireEvent el type e dc :: EDifferFlush :: evs)
       ∧ ∀ r a', fireEvent (Ref ref) type e dc a = Ret r a' →
           r = result
           ∧ ∃ evs, trace a' = trace a ++ EDocFireEvent el type e dc
                                 :: EDifferFlush :: evs ++ [EUpdateFinish])
  ∧ (∀ ref d, doc a = Some d → doc_getRef (dom a) ref = None →
       fireEvent (Ref ref) type e dc a = Ret (invalid_element_reference ref) a).
Proof.
  split_and!.
  - intros refs r a'. apply fireEvent_refs_returns.
  - intros ref refs a1 r Hr Hnf. by rewrite fireEvent_refs_cons, Hr, Hnf.
  - intros Hd refs. by apply fireEvent_refs_final.
  - intros ref d el result w ts Hdoc Hel Hfire a1.
    assert (Heq : fireEvent (Ref ref) type e dc a = finish result a1).
    { by rewrite fireEvent_ref_eq, Hdoc, Hel, Hfire. }
    rewrite Heq. split_and!; [done| |].
    + destruct (finish_trace result a1) as [evs ->].
      exists evs. cbn. by rewrite <- app_assoc.
    + intros r a' [-> [evs ->]]%finish_ret. split; [done|].
      exists evs. cbn. by rewrite <- app_assoc.
  - intros ref d Hdoc Hel. by rewrite fireEvent_ref_eq, Hdoc, Hel.
Qed.

End FireEvent.

End CtrlFacts.

(** *** An app on a small host *)

Module CtrlDemo.

Import Ctrl.

(** A host whose world counts the calls of user code.  A callback asks
    for an alert with a callback of its own; the handler of the element
    A declines an event with [false], any other handler accepts it. *)
#[global] Instance host : Host nat :=
  {| JSON_stringify := λ _, Some "{}";
     differ_flush := λ w, (Normal VUndefined, w, []);
     apply_function := λ f data w,
       (Normal VUndefined, S w,
        [{| task_module := "modal"; task_method := "alert";
            task_args := [data; VFunction (S f)] |}]);
     doc_getRef := λ _ ref,
       if String.eqb ref "A" || String.eqb ref "B" || String.eqb ref "C"
       then Some ref else None;
     doc_fireEvent := λ el _ _ _ w,
       (Normal (VBool (negb (String.eqb el "A"))), S w, []);
     sendTasks := λ _ _ _, VUndefined |}.

(** An app with one registered callback. *)
Definition app : App nat :=
  {| id := "x"; uid := 1; callbacks := {[ "1" := VFunction 7 ]};
     doc := Some {| listener := Some {| updates := [] |} |};
     dom := 0%nat; trace := [] |}.

(** [app.fireEvent]: bound to ctrl's [fireEvent], with one reference. *)
Definition app_fireEvent (ref type : string) (e : value) : M (App nat) value :=
  fireEvent (H := host) (λ _ _ _, mret VUndefined) (Ref ref) type e VUndefined.

(** A value that holds a function or an element, at any depth. *)
Fixpoint live (v : value) : bool :=
  match v with
  | VFunction _ | VElement _ => true
  | VArray items => existsb live items
  | VObject fields => existsb (λ kv, live kv.2) fields
  | _ => false
  end.

(** The calls of stored functions in a trace. *)
Definition is_apply (ev : event) : bool :=
  match ev with EApply _ _ => true | _ => false end.

End CtrlDemo.

Lemma CtrlDemo_app_fresh : fresh CtrlDemo.app.
Proof.
  intros n Hn. unfold CtrlDemo.app. cbn [Ctrl.callbacks].
  apply lookup_singleton_ne. change "1" with (pretty 1).
  intros Heq%(inj pretty). cbn in Hn. lia.
Qed.





(** [fireEvent] on the demo app with the candidates A, B and C: the
    handlers of A and B run, each followed by the flush and the
    update-finished signal of the app's own dispatch; C is not reached. *)
Example fireEvent_ABC :
  let fire := Ctrl.fireEvent CtrlDemo.app_fireEvent
                (Ctrl.Refs ["A"; "B"; "C"]) "click" (VObject []) VUndefined in
  returned (fire CtrlDemo.app) = Some VUndefined
  ∧ Ctrl.trace (final (fire CtrlDemo.app))
    = [Ctrl.EDocFireEvent "A" "click" (VObject []) VUndefined;
       Ctrl.EDifferFlush; Ctrl.EUpdateFinish;
       Ctrl.EDocFireEvent "B" "click" (VObject []) VUndefined;
       Ctrl.EDifferFlush; Ctrl.EUpdateFinish].
Proof. vm_compute. done. Qed.

(** * More of the two files *)

(** ** html5/runtime/index.js: the other generated methods *)

Module Methods.

Import Runtime.

Section Methods.

Context {W : Type}.
Variable frameworks : gmap string (Framework W).
Variable ToString_other : value → string.

(** The property names of [frameworks], in the order in which
    [for (const name in frameworks)] visits them. *)
Variable names : list string.

(** [for (const name in ...) { body }] *)
Fixpoint for_in (body : string → M (Store W) unit) (l : list string)
  : M (Store W) unit :=
  match l with
  | [] => mret tt
  | name :: l' => body name;; for_in body l'
  end.

(** The function [genInit(methodName)] stores in [methods]. *)
Definition genInit (methodName : string) (args : list value)
  : M (Store W) unit :=
  for_in (λ name,
            match frameworks !! name with
            | Some fw =>
                match fw_methods fw !! methodName with
                | Some m =>
                    log_call (Call name methodName args);;
                    in_world (m args);;
                    mret tt
                | None => mret tt
                end
            | None => mret tt
            end) names.

(** [['registerComponents', 'registerModules', 'registerMethods'].forEach(genInit)] *)
Definition registerComponents := genInit "registerComponents".
Definition registerModules := genInit "registerModules".
Definition registerMethods := genInit "registerMethods".

(** The function [adaptInstance(methodName, nativeMethodName)] stores in
    [methods] under [nativeMethodName]. *)
Definition adaptInstance (methodName nativeMethodName : string) (id : string)
  (rest : list value) : M (Store W) value :=
  i ← gets (λ st, instanceMap st !! id);
  match i with
  | Some i =>
      let name := to_key ToString_other (get_field "framework" i) in
      if registered frameworks name
      then invoke frameworks name methodName (VStr id :: rest)
      else mret (invalid_instance_id id)
  | None => mret (invalid_instance_id id)
  end.

(** [adaptInstance('receiveTasks', 'callJS')] *)
Definition callJS := adaptInstance "receiveTasks" "callJS".

End Methods.
End Methods.

(** ** The registry over its life *)

Section RegistryLife.

Import Runtime Methods.

Context {W : Type}.
Variable frameworks : gmap string (Framework W).
Variable ToString_other : value → string.

Implicit Types (st : Store W) (id : string).

(** The framework name [prepareInstance] works with: [type || 'Weex']. *)
Definition prepare_type (type : option string) : string :=
  match type with
  | Some t => if String.eqb t "" then "Weex" else t
  | None => "Weex"
  end.

Lemma genInstance_eq methodName id rest st :
  genInstance frameworks ToString_other methodName id rest st =
  let st' := if String.eqb methodName "destroyInstance"
             then removed id st else st in
  match instanceMap st !! id with
  | Some i =>
      let name := to_key ToString_other (get_field "framework" i) in
      if registered frameworks name
      then invoke frameworks name methodName (VStr id :: rest) st'
      else Ret (invalid_instance_id id) st'
  | None => Ret (invalid_instance_id id) st'
  end.
Proof.
  unfold genInstance, mbind, M_bind, bind, gets, delete_instance, modify,
    mret, M_ret, ret.
  fold (removed id st).
  destruct (String.eqb methodName "destroyInstance");
    (destruct (instanceMap st !! id) as [i|]; [|reflexivity]);
    by destruct (registered frameworks _).
Qed.

(** [framework.prepareInstance], when [frameworks[type]] exists and has
    one. *)
Definition preparer (type : option string) : option (list value → M W info) :=
  frameworks !! prepare_type type ≫= fw_prepareInstance.

Lemma prepareInstance_eq id type config data st :
  prepareInstance frameworks id type config data st =
  match preparer type with
  | Some prepare =>
      match prepare [VStr id; config; data] (world st) with
      | Ret shell w =>
          Ret tt {| instanceMap :=
                      <[id := set_prop "framework" (VStr (prepare_type type)) shell]>
                        (instanceMap st);
                    world := w;
                    calls := calls st ++ [Call (prepare_type type) "prepareInstance"
                                               [VStr id; config; data]] |}
      | Throw e w =>
          Throw e {| instanceMap := instanceMap st; world := w;
                     calls := calls st ++ [Call (prepare_type type) "prepareInstance"
                                                [VStr id; config; data]] |}
      end
  | None => Ret tt (stored id [] st)
  end.
Proof.
  unfold prepareInstance. cbv zeta. fold (prepare_type type).
  fold (preparer type).
  destruct (preparer type) as [prepare|]; [|reflexivity].
  unfold mbind, M_bind, bind, log_call, modify, in_world, set_instance. cbn.
  by destruct (prepare _ (world st)).
Qed.

Lemma createInstance_eq id code config data st :
  createInstance frameworks ToString_other id code config data st =
  match instanceMap st !! id with
  | None =>
      invoke frameworks (resolved frameworks ToString_other code) "createInstance"
        (create_args id code config data)
        (stored id (entry frameworks ToString_other code) st)
  | Some _ => Ret (invalid_instance_id id) st
  end.
Proof.
  unfold createInstance, mbind, M_bind, bind, gets.
  destruct (instanceMap st !! id); [done|].
  fold (sniffed code). fold (entry frameworks ToString_other code).
  by rewrite entry_framework, entry_version.
Qed.

Abbreviation genInstance' := (genInstance frameworks ToString_other).
Abbreviation adaptInstance' := (adaptInstance frameworks ToString_other).
Abbreviation createInstance' := (createInstance frameworks ToString_other).
Abbreviation prepareInstance' := (prepareInstance frameworks).
Abbreviation invoke' := (invoke frameworks).
Abbreviation resolved' := (resolved frameworks ToString_other).
Abbreviation entry' := (entry frameworks ToString_other).

Lemma eqb_destroy_false methodName :
  methodName ≠ "destroyInstance" →
  String.eqb methodName "destroyInstance" = false.
Proof. by intros ?%String.eqb_neq. Qed.

Lemma removed_absent id st : instanceMap st !! id = None → removed id st = st.
Proof.
  intros Hid. destruct st as [im w cs]. unfold removed. cbn in *.
  by rewrite delete_id.
Qed.

Lemma preparer_registered type prepare :
  preparer type = Some prepare → registered frameworks (prepare_type type) = true.
Proof.
  unfold preparer, registered.
  by destruct (frameworks !! prepare_type type).
Qed.

(** X1.  When [type] (or ['Weex'], for a missing or empty [type]) names a
    framework with a [prepareInstance] that returns a shell,
    [prepareInstance] stores the shell under [id] with its [framework]
    property set to that name, over whatever the shell had there, and
    with its other properties as they were; from then on every
    per-instance method for [id] is handed to that framework. *)
Theorem prepareInstance_binds_framework id type config data st prepare shell w :
  preparer type = Some prepare →
  prepare [VStr id; config; data] (world st) = Ret shell w →
  let st' := final (prepareInstance' id type config data st) in
  prepareInstance' id type config data st = Ret tt st'
  ∧ instanceMap st' !! id
    = Some (set_prop "framework" (VStr (prepare_type type)) shell)
  ∧ get_field "framework" (set_prop "framework" (VStr (prepare_type type)) shell)
    = VStr (prepare_type type)
  ∧ (∀ k, k ≠ "framework" →
       get_prop k (set_prop "framework" (VStr (prepare_type type)) shell)
       = get_prop k shell)
  ∧ (∀ methodName rest,
       methodName ≠ "destroyInstance" →
       genInstance' methodName id rest st'
       = invoke' (prepare_type type) methodName (VStr id :: rest) st')
  ∧ (∀ rest,
       genInstance' "destroyInstance" id rest st'
       = invoke' (prepare_type type) "destroyInstance" (VStr id :: rest)
           (removed id st')).
Proof.
  intros Hp Hs st'. subst st'. rewrite prepareInstance_eq, Hp, Hs. cbn [final].
  assert (Hfw : get_field "framework"
                  (set_prop "framework" (VStr (prepare_type type)) shell)
                = VStr (prepare_type type)).
  { unfold get_field. by rewrite get_set_prop_eq. }
  split_and!; [done|apply lookup_insert_eq|done| | |].
  - intros k Hk. by apply get_set_prop_ne.
  - intros methodName rest Hm. rewrite genInstance_eq.
    rewrite (eqb_destroy_false _ Hm). cbn [instanceMap].
    rewrite lookup_insert_eq. cbv zeta. rewrite Hfw. cbn [to_key].
    by rewrite (preparer_registered _ _ Hp).
  - intros rest. rewrite genInstance_eq. cbn [String.eqb Ascii.eqb Bool.eqb instanceMap].
    rewrite lookup_insert_eq. cbv zeta. rewrite Hfw. cbn [to_key].
    by rewrite (preparer_registered _ _ Hp).
Qed.

(** X2.  When the framework's [prepareInstance] throws, [prepareInstance]
    throws the same value and the registry is as it was: no entry is
    stored for [id] and an entry [id] had is kept. *)
Theorem prepareInstance_throw_keeps_registry id type config data st prepare e w :
  preparer type = Some prepare →
  prepare [VStr id; config; data] (world st) = Throw e w →
  ∃ st', prepareInstance' id type config data st = Throw e st'
         ∧ instanceMap st' = instanceMap st.
Proof.
  intros Hp Hs. rewrite prepareInstance_eq, Hp, Hs. by eexists.
Qed.




(** X6.  [createInstance] cannot be repeated: after a [createInstance]
    for [id], whether it created the instance, threw from the framework
    or found an entry, a further [createInstance] for [id] returns the
    invalid-instance-id error, calls no framework and leaves the store as
    it is. *)
Theorem createInstance_twice id code config data code' config' data' st :
  let st' := final (createInstance' id code config data st) in
  createInstance' id code' config' data' st' = Ret (invalid_instance_id id) st'.
Proof.
  intros st'.
  assert (is_Some (instanceMap st' !! id)) as [i Hi].
  { subst st'. rewrite createInstance_eq.
    destruct (instanceMap st !! id) as [i|] eqn:Hid; [cbn; by rewrite Hid|].
    rewrite instanceMap_invoke. cbn. by rewrite lookup_insert_eq. }
  by rewrite createInstance_eq, Hi.
Qed.


(** X8.  A per-instance method that the bound framework does not define
    is not answered with the error value: the call throws a [TypeError].
    For [destroyInstance] the entry is removed all the same; for the
    other methods the store is as before. *)
Theorem missing_method_throws methodName id rest st i fw :
  instanceMap st !! id = Some i →
  frameworks !! to_key ToString_other (get_field "framework" i) = Some fw →
  fw_methods fw !! methodName = None →
  genInstance' methodName id rest st
  = Throw TypeError (if String.eqb methodName "destroyInstance"
                     then removed id st else st)
  ∧ instanceMap (removed id st) !! id = None.
Proof.
  intros Hi Hfw Hm. split; [|apply lookup_delete_eq].
  rewrite genInstance_eq, Hi. cbv zeta.
  unfold registered, invoke. rewrite Hfw.
  by destruct (fw_methods fw !! methodName).
Qed.


(** X10.  The adapted method is the generated one for every method but
    [destroyInstance]: [callJS] is [receiveTasks]. *)
Theorem adaptInstance_is_genInstance methodName nativeName id rest st :
  (methodName ≠ "destroyInstance" →
   adaptInstance' methodName nativeName id rest st
   = genInstance' methodName id rest st)
  ∧ callJS frameworks ToString_other id rest st
    = receiveTasks frameworks ToString_other id rest st.
Proof.
  assert (∀ m, m ≠ "destroyInstance" →
            adaptInstance' m nativeName id rest st = genInstance' m id rest st) as Hgen.
  { intros m Hm. rewrite genInstance_eq, (eqb_destroy_false _ Hm). cbv zeta.
    unfold adaptInstance, mbind, M_bind, bind, gets.
    destruct (instanceMap st !! id) as [i|]; [|done].
    by destruct (registered frameworks _). }
  split; [apply Hgen|].
  unfold callJS, receiveTasks.
  assert ("receiveTasks" ≠ "destroyInstance") as Hne by done.
  unfold adaptInstance, mbind, M_bind, bind, gets.
  rewrite genInstance_eq, (eqb_destroy_false _ Hne). cbv zeta.
  destruct (instanceMap st !! id) as [i|]; [|done].
  by destruct (registered frameworks _).
Qed.

(** X11.  A placeholder binds its id to no framework: after a
    [prepareInstance] whose [type] names no framework with a
    [prepareInstance], and with no framework registered under the name
    ['undefined'], every per-instance method for [id] returns the
    invalid-instance-id error and calls no framework. *)
Theorem placeholder_is_unbound id type config data st :
  preparer type = None →
  frameworks !! "undefined" = None →
  let st' := final (prepareInstance' id type config data st) in
  st' = stored id [] st
  ∧ (∀ methodName rest,
       methodName ≠ "destroyInstance" →
       genInstance' methodName id rest st' = Ret (invalid_instance_id id) st')
  ∧ (∀ rest,
       genInstance' "destroyInstance" id rest st'
       = Ret (invalid_instance_id id) (removed id st')).
Proof.
  intros Hp Hu st'. subst st'. rewrite prepareInstance_eq, Hp. cbn [final].
  split_and!; [done| |].
  - intros methodName rest Hm.
    rewrite genInstance_eq, (eqb_destroy_false _ Hm). cbn [stored instanceMap].
    rewrite lookup_insert_eq. cbv zeta. cbn [get_field get_prop default from_option to_key].
    unfold registered. by rewrite Hu.
  - intros rest. rewrite genInstance_eq. cbn [stored instanceMap].
    rewrite lookup_insert_eq. cbn [String.eqb Ascii.eqb Bool.eqb]. cbv zeta.
    cbn [get_field get_prop default from_option to_key].
    unfold registered. by rewrite Hu.
Qed.

(** *** The broadcast methods *)

Variable names : list string.

Abbreviation genInit' := (genInit frameworks names).

(** [framework && framework[methodName]] *)
Definition defines (methodName name : string) : bool :=
  match frameworks !! name with
  | Some fw =>
      match fw_methods fw !! methodName with Some _ => true | None => false end
  | None => false
  end.

(** The calls a broadcast of [methodName] makes to the frameworks [l]. *)
Definition broadcast_calls (methodName : string) (args : list value)
  (l : list string) : list call :=
  map (λ name, Call name methodName args) (List.filter (defines methodName) l).

(** One round of the loop of [genInit]. *)
Definition init_one (methodName : string) (args : list value) (name : string)
  : M (Store W) unit :=
  match frameworks !! name with
  | Some fw =>
      match fw_methods fw !! methodName with
      | Some m =>
          log_call (Call name methodName args);; in_world (m args);; mret tt
      | None => mret tt
      end
  | None => mret tt
  end.

Lemma init_one_final methodName args name st :
  instanceMap (final (init_one methodName args name st)) = instanceMap st
  ∧ calls (final (init_one methodName args name st))
    = calls st ++ broadcast_calls methodName args [name]
  ∧ ((∀ fw (m : method W) w, frameworks !! name = Some fw →
                fw_methods fw !! methodName = Some m →
                ∃ v w', m args w = Ret v w') →
     ∃ st', init_one methodName args name st = Ret tt st').
Proof.
  unfold init_one, broadcast_calls, defines. cbn [List.filter].
  destruct (frameworks !! name) as [fw|];
    [|split_and!; [done|by rewrite app_nil_r|by eexists]].
  destruct (fw_methods fw !! methodName) as [m|] eqn:Em;
    [|split_and!; [done|by rewrite app_nil_r|by eexists]].
  unfold mbind, M_bind, bind, log_call, modify, in_world. cbn.
  split_and!.
  - by destruct (m args (world st)).
  - by destruct (m args (world st)).
  - intros Hret. destruct (Hret fw m (world st) eq_refl Em) as (v & w' & ->).
    by eexists.
Qed.

Lemma for_in_cons methodName args name l st :
  for_in (init_one methodName args) (name :: l) st =
  match init_one methodName args name st with
  | Ret _ st1 => for_in (init_one methodName args) l st1
  | Throw e st1 => Throw e st1
  end.
Proof. reflexivity. Qed.

Lemma broadcast_calls_cons methodName args name l :
  broadcast_calls methodName args (name :: l)
  = broadcast_calls methodName args [name] ++ broadcast_calls methodName args l.
Proof.
  unfold broadcast_calls. cbn [List.filter].
  by destruct (defines methodName name).
Qed.

Lemma for_in_broadcast methodName args l st :
  instanceMap (final (for_in (init_one methodName args) l st)) = instanceMap st
  ∧ (∃ k, calls (final (for_in (init_one methodName args) l st))
          = calls st ++ take k (broadcast_calls methodName args l))
  ∧ (∀ st', for_in (init_one methodName args) l st = Ret tt st' →
            calls st' = calls st ++ broadcast_calls methodName args l)
  ∧ ((∀ name fw (m : method W) w, frameworks !! name = Some fw →
                     fw_methods fw !! methodName = Some m →
                     ∃ v w', m args w = Ret v w') →
     ∃ st', for_in (init_one methodName args) l st = Ret tt st').
Proof.
  revert st. induction l as [|name l IH]; intros st.
  { split_and!; [done|by exists 0%nat; rewrite app_nil_r| |by eexists].
    intros st' [= <-]. by rewrite app_nil_r. }
  rewrite for_in_cons, broadcast_calls_cons.
  destruct (init_one_final methodName args name st) as (Him & Hcs & Hret).
  destruct (init_one methodName args name st) as [[] st1|e st1] eqn:E;
    cbn [final] in Him, Hcs.
  - destruct (IH st1) as (Him1 & [k Hk] & Hall & Hret1).
    split_and!.
    + congruence.
    + exists (length (broadcast_calls methodName args [name]) + k)%nat.
      rewrite Hk, Hcs, <- app_assoc. f_equal.
      by rewrite take_app_add.
    + intros st' Hst'. rewrite (Hall st' Hst'), Hcs. by rewrite <- app_assoc.
    + intros Hnt. apply Hret1. exact Hnt.
  - split_and!; [done| |done|].
    + exists (length (broadcast_calls methodName args [name])).
      cbn [final]. rewrite Hcs. f_equal. by rewrite take_app_length.
    + intros Hnt. destruct (Hret (Hnt name)) as [st' Hst']. congruence.
Qed.


End RegistryLife.

(** ** The sniffer and the rest of the bundle *)

Section SnifferMore.

Import RegExp Runtime.

(** X13.  What [checkVersion] returns is decided by the brace group of
    the header alone: two texts whose headers hold the same group sniff
    alike, whatever the number of spaces around the group, the kind of
    line break, and the text after it. *)
Theorem checkVersion_only_header (code code' grp : string) :
  has_header code grp → has_header code' grp →
  checkVersion code = checkVersion code'.
Proof.
  intros Hh%has_header_header Hh'%has_header_header.
  unfold checkVersion. by rewrite !exec_versionRegExp, Hh, Hh'.
Qed.

End SnifferMore.

Lemma checkVersion_only_header_witness :
  let grp := "{" +:+ member "framework" "Foo" +:+ "}" in
  let code := "//" +:+ grp +:+ nl +:+ "a()" in
  let code' := "//  " +:+ grp +:+ " " +:+ eol_CRLF +:+ "b(); c()" in
  has_header code grp ∧ has_header code' grp
  ∧ Runtime.checkVersion code = Runtime.checkVersion code'.
Proof.
  intros grp code code'.
  assert (Hc : has_header code grp).
  { exists 0%nat, 0%nat, (member "framework" "Foo"), eol_LF, "a()".
    split_and!; [reflexivity|reflexivity|by left|reflexivity]. }
  assert (Hc' : has_header code' grp).
  { exists 2%nat, 1%nat, (member "framework" "Foo"), eol_CRLF, "b(); c()".
    split_and!; [reflexivity|reflexivity|by right|reflexivity]. }
  split_and!; [exact Hc|exact Hc'|].
  exact (checkVersion_only_header code code' grp Hc Hc').
Defined.

(** ** Batches and callbacks *)

Section CtrlMore.

Import Ctrl.

Context {Dom : Type} {H : Host Dom}.

Implicit Types (a : App Dom) (v r : value) (k : string).

(** The tasks [callTasks] works on: [tasks], or [[tasks]] when it is not
    an array. *)
Definition tasks_of (tasks : tasks_arg) : list Task :=
  match tasks with TaskList ts => ts | OneTask t => [t] end.

(** Neither a function nor an element. *)
Definition bridge_safe r : Prop :=
  is_function r = false ∧ instanceof_Element r = false.

(** [t'] is [t] with its arguments normalized. *)
Definition task_sent (t t' : Task) : Prop :=
  task_module t' = task_module t
  ∧ task_method t' = task_method t
  ∧ Forall2 (λ _ r, bridge_safe r) (task_args t) (task_args t').

(** The number of arguments that [normalize] takes for functions. *)
Definition functions (vs : list value) : nat :=
  length (List.filter (λ v, String.eqb (typof v) "function") vs).

Fixpoint functions_in (ts : list Task) : nat :=
  match ts with
  | [] => 0
  | t :: ts' => functions (task_args t) + functions_in ts'
  end.

Lemma mapM_cons_eq {A B} (f : A → M (App Dom) B) x l a :
  mapM f (x :: l) a =
  match f x a with
  | Ret y a1 =>
      match mapM f l a1 with
      | Ret ys a2 => Ret (y :: ys) a2
      | Throw e a2 => Throw e a2
      end
  | Throw e a1 => Throw e a1
  end.
Proof.
  cbn [mapM]. unfold mbind, M_bind, bind.
  destruct (f x a) as [y a1|e a1]; [|done].
  by destruct (mapM f l a1).
Qed.

(** What holds of every step of a [map] holds of the whole, when the
    relation between argument and result survives the later steps. *)
Lemma mapM_Forall2 {A B} (f : A → M (App Dom) B)
  (P : App Dom → A → B → Prop) (R : relation (App Dom)) `{!PreOrder R} :
  (∀ x, preserves R (f x)) →
  (∀ x a y a', f x a = Ret y a' → P a' x y) →
  (∀ a a' x y, R a a' → P a x y → P a' x y) →
  ∀ l a ys a', mapM f l a = Ret ys a' → Forall2 (P a') l ys.
Proof.
  intros HR Hf Hmono l. induction l as [|x l IH]; intros a ys a'.
  - intros [= <- _]. constructor.
  - rewrite mapM_cons_eq.
    destruct (f x a) as [y a1|e a1] eqn:Ex; [|done].
    destruct (mapM f l a1) as [ys1 a2|e a2] eqn:El; [|done].
    intros [= <- <-]. constructor; [|by eapply IH].
    eapply Hmono; [|by eapply Hf].
    pose proof (preserves_mapM R f l HR a1) as Hp. by rewrite El in Hp.
Qed.

Lemma normalize_safe v a r a' : normalize v a = Ret r a' → bridge_safe r.
Proof.
  unfold normalize, bridge_safe.
  destruct v; cbn; try (intros [= <- <-]; done);
    repeat case_match;
    cbv [mret M_ret ret throw mbind M_bind bind modify gets];
    intros; by simplify_eq.
Qed.

Local Instance total_preorder : PreOrder (λ _ _ : App Dom, True).
Proof. by split. Qed.

Lemma normalize_task_sent t a t' a' :
  normalize_task t a = Ret t' a' → task_sent t t'.
Proof.
  unfold normalize_task, mbind, M_bind, bind.
  destruct (mapM normalize (task_args t) a) as [args a1|e a1] eqn:E; [|done].
  intros [= <- <-]. split_and!; [done..|]. cbn.
  eapply (mapM_Forall2 normalize (λ _ _ r, bridge_safe r) (λ _ _, True));
    [done| |done|exact E].
  intros x a0 y a0'. apply normalize_safe.
Qed.

Lemma callTasks_tasks_of tasks a :
  callTasks tasks a = callTasks (TaskList (tasks_of tasks)) a.
Proof. by destruct tasks. Qed.


(** *** Ids and the functions they stand for *)

(** In the store [a], the result [r] of normalizing [v] stands for [v]:
    when [v] is a function, [r] is the decimal form of a counter value
    not above the counter, and [v] is stored under it. *)
Definition stands_for a v r : Prop :=
  typof v = "function" →
  ∃ n, n ≤ uid a ∧ r = VStr (pretty n) ∧ callbacks a !! pretty n = Some v.

Lemma stands_for_extends a a' v r :
  extends a a' → stands_for a v r → stands_for a' v r.
Proof.
  intros (_ & Hu & Hc & _) Hs Hf. destruct (Hs Hf) as (n & Hn & -> & Hk).
  exists n. split_and!; [lia|done|]. rewrite Hc; [done|].
  intros n' Hn' Heq%(inj pretty). lia.
Qed.

Lemma normalize_stands_for v a r a' :
  normalize v a = Ret r a' → stands_for a' v r.
Proof.
  intros Hn Hf. rewrite (normalize_function _ _ Hf) in Hn.
  injection Hn as <- <-. exists (uid a + 1).
  split_and!; [done|done|apply lookup_insert_eq].
Qed.

Lemma normalize_uid v a r a' :
  normalize v a = Ret r a' →
  uid a' = uid a + Z.of_nat (functions [v]).
Proof.
  unfold functions. cbn [List.filter].
  destruct (String.eqb (typof v) "function") eqn:Ef.
  - apply String.eqb_eq in Ef. rewrite (normalize_function _ _ Ef).
    by intros [= _ <-].
  - unfold normalize. rewrite Ef.
    repeat case_match;
      cbv [mret M_ret ret throw mbind M_bind bind modify gets];
      intros; simplify_eq; cbn; lia.
Qed.

Lemma functions_cons v vs :
  functions (v :: vs) = (functions [v] + functions vs)%nat.
Proof.
  unfold functions. cbn [List.filter].
  by destruct (String.eqb (typof v) "function").
Qed.

Lemma mapM_normalize_uid vs a rs a' :
  mapM normalize vs a = Ret rs a' →
  uid a' = uid a + Z.of_nat (functions vs).
Proof.
  revert a rs a'. induction vs as [|v vs IH]; intros a rs a'.
  - intros [= _ <-]. cbn. lia.
  - rewrite mapM_cons_eq, functions_cons.
    destruct (normalize v a) as [r a1|] eqn:Ev; [|done].
    destruct (mapM normalize vs a1) as [rs1 a2|] eqn:Evs; [|done].
    intros [= _ <-]. rewrite (IH _ _ _ Evs), (normalize_uid _ _ _ _ Ev). lia.
Qed.

Lemma normalize_tasks_uid ts a sent a' :
  mapM normalize_task ts a = Ret sent a' →
  uid a' = uid a + Z.of_nat (functions_in ts).
Proof.
  revert a sent a'. induction ts as [|t ts IH]; intros a sent a'.
  - intros [= _ <-]. cbn. lia.
  - rewrite mapM_cons_eq. cbn [functions_in].
    destruct (normalize_task t a) as [t' a1|] eqn:Et; [|done].
    destruct (mapM normalize_task ts a1) as [sent1 a2|] eqn:Ets; [|done].
    intros [= _ <-]. rewrite (IH _ _ _ Ets).
    unfold normalize_task, mbind, M_bind, bind in Et.
    destruct (mapM normalize (task_args t) a) as [args a0|] eqn:Ea; [|done].
    injection Et as _ <-. rewrite (mapM_normalize_uid _ _ _ _ Ea). lia.
Qed.


Lemma normalize_task_stands_for t a t' a' :
  normalize_task t a = Ret t' a' →
  Forall2 (stands_for a') (task_args t) (task_args t').
Proof.
  unfold normalize_task, mbind, M_bind, bind.
  destruct (mapM normalize (task_args t) a) as [args a1|e a1] eqn:E; [|done].
  intros [= <- <-]. cbn.
  eapply (mapM_Forall2 normalize stands_for extends);
    [apply extends_normalize| | |exact E].
  - intros x a0 y a0'. apply normalize_stands_for.
  - intros a0 a0' x y. apply stands_for_extends.
Qed.


End CtrlMore.

(** ** User code that throws, apps without a document *)

Section CtrlEdges.

Import Ctrl.

Context {Dom : Type} {H : Host Dom}.

Implicit Types (a : App Dom) (v r : value) (k : string).

(** X17.  An exception of user code passes through [callback] and
    [fireEvent] as it is, with nothing done after it: when the stored
    function throws, [callback] throws the same value, the slot is not
    cleared whatever [keepAlive] is, and there is no flush and no
    update-finished signal; when the event handler throws, [fireEvent]
    throws the same value, again without flush and signal. *)
Theorem user_exception_propagates a :
  (∀ k f data ka e w ts,
     callbacks a !! k = Some (VFunction f) →
     apply_function f data (dom a) = (Abrupt e, w, ts) →
     ∃ a', callback k data ka a = Throw e a'
           ∧ callbacks a' = callbacks a
           ∧ uid a' = uid a
           ∧ trace a' = trace a ++ [EApply f data])
  ∧ (∀ dispatch ref type ev dc d el e w ts,
       doc a = Some d →
       doc_getRef (dom a) ref = Some el →
       doc_fireEvent el type ev dc (dom a) = (Abrupt e, w, ts) →
       ∃ a', fireEvent dispatch (Ref ref) type ev dc a = Throw e a'
             ∧ trace a' = trace a ++ [EDocFireEvent el type ev dc]).
Proof.
  split.
  - intros k f data ka e w ts Hk Hf.
    rewrite (callback_function _ _ _ _ _ Hk), Hf. by eexists.
  - intros dispatch ref type ev dc d el e w ts Hd Hel Hf.
    rewrite fireEvent_ref_eq, Hd, Hel, Hf. by eexists.
Qed.

(** The app has no document, or its document has no listener. *)
Definition no_listener a : Prop :=
  match doc a with
  | Some {| listener := Some _ |} => False
  | _ => True
  end.

Lemma no_listener_push ts a :
  no_listener a → push_updates ts (doc a) = doc a.
Proof. unfold no_listener. by destruct (doc a) as [[[l|]]|]. Qed.

Lemma updateFinish_no_listener a :
  no_listener a → updateFinish a = Throw TypeError a.
Proof.
  unfold no_listener, updateFinish, mbind, M_bind, bind, gets.
  by destruct (doc a) as [[[l|]]|].
Qed.

(** X18.  On an app without a document [fireEvent] with one reference
    throws a [TypeError] before any handler is looked up, and does not
    return the invalid-reference error.  On an app without a document
    or listener, [callback] on a stored function still calls the
    function, clears the slot as [keepAlive] asks and flushes the differ,
    sends nothing, and then throws a [TypeError] in place of returning:
    the update-finished signal has no listener to go to. *)
Theorem no_document_throws a :
  (∀ dispatch ref type ev dc,
     doc a = None →
     fireEvent dispatch (Ref ref) type ev dc a = Throw TypeError a)
  ∧ (∀ k f data ka v w ts v' w' ts',
       no_listener a →
       callbacks a !! k = Some (VFunction f) →
       apply_function f data (dom a) = (Normal v, w, ts) →
       differ_flush w = (Normal v', w', ts') →
       ∃ a', callback k data ka a = Throw TypeError a'
             ∧ trace a' = trace a ++ [EApply f data; EDifferFlush]
             ∧ callbacks a' !! k
               = Some (if single_shot ka then VUndefined else VFunction f)
             ∧ dom a' = w').
Proof.
  split.
  - intros dispatch ref type ev dc Hd. by rewrite fireEvent_ref_eq, Hd.
  - intros k f data ka v w ts v' w' ts' Hno Hk Hf Hd.
    rewrite (callback_function _ _ _ _ _ Hk), Hf.
    set (a1 := reacted (EApply f data) w ts a).
    set (a2 := if single_shot ka then with_callback k VUndefined a1 else a1).
    assert (Hdoc2 : doc a2 = doc a).
    { subst a2 a1. destruct (single_shot ka); cbn; by apply no_listener_push. }
    assert (Hdom2 : dom a2 = w) by (subst a2 a1; by destruct (single_shot ka)).
    assert (Hno2 : no_listener a2) by (unfold no_listener; by rewrite Hdoc2).
    unfold finish, mbind at 1, M_bind, bind.
    rewrite (updateActions_flushed a2 v' w' ts') by (by rewrite Hdom2).
    set (a3 := reacted EDifferFlush w' ts' a2).
    assert (Hdoc3 : doc a3 = doc a).
    { subst a3. cbn. rewrite no_listener_push; done. }
    assert (Hp : pending a3 = []).
    { unfold pending. rewrite Hdoc3. unfold no_listener in Hno.
      by destruct (doc a) as [[[l|]]|]. }
    assert (Hno3 : no_listener a3) by (unfold no_listener; by rewrite Hdoc3).
    rewrite Hp. unfold mbind, M_bind, bind.
    rewrite (updateFinish_no_listener a3 Hno3). exists a3.
    split_and!.
    + done.
    + subst a3 a2 a1. destruct (single_shot ka); cbn; by rewrite <- app_assoc.
    + subst a3 a2 a1. destruct (single_shot ka); cbn;
        [apply lookup_insert_eq|done].
    + done.
Qed.

(** *** Flushing twice *)

Lemma updateActions_drains a r a' : updateActions a = Ret r a' → pending a' = [].
Proof.
  unfold updateActions, mbind at 1, M_bind, bind. rewrite collab_eq.
  destruct (differ_flush (dom a)) as [[[v|e] w] ts] eqn:Hd; [|done].
  pose proof (updateActions_flushed a v w ts Hd) as Heq.
  unfold updateActions, mbind at 1, M_bind, bind in Heq.
  rewrite collab_eq, Hd in Heq. rewrite Heq. clear Heq.
  set (a1 := reacted EDifferFlush w ts a).
  destruct (pending a1) as [|t l] eqn:Hp; [by intros [= _ <-]|].
  rewrite callTasks_eq.
  pose proof (same_doc_normalize_tasks (t :: l) (drained a1)) as (Hdoc & _ & _).
  destruct (mapM normalize_task (t :: l) (drained a1)) as [sent a2|]; [|done].
  cbn [final] in Hdoc. intros [= _ <-]. unfold pending. cbn. by rewrite Hdoc.
Qed.

(** X19.  A flush leaves nothing to flush: after an [updateActions] that
    returned, a second one, for which the differ has no new update,
    sends nothing and only records the differ's flush. *)
Theorem updateActions_twice a r a' v w :
  updateActions a = Ret r a' →
  differ_flush (dom a') = (Normal v, w, []) →
  updateActions a' = Ret VUndefined (reacted EDifferFlush w [] a')
  ∧ trace (reacted EDifferFlush w [] a') = trace a' ++ [EDifferFlush].
Proof.
  intros Hu%updateActions_drains Hd.
  rewrite (updateActions_flushed _ _ _ _ Hd). split; [|done].
  assert (pending (reacted EDifferFlush w [] a') = []) as ->; [|done].
  unfold pending in *. cbn.
  destruct (doc a') as [[[l|]]|]; cbn in *; [|done..].
  by rewrite Hu, app_nil_r.
Qed.

(** *** Normalizing again *)

(** X20.  A normalized value passes through [normalize] again without a
    change to the store, so without a new callback id, and comes out as
    it is, but for [undefined] (what [JSON.stringify] gave for a value
    it does not serialize), which becomes the empty string. *)
Theorem normalize_again v a r a' :
  normalize v a = Ret r a' →
  normalize r a' = Ret (if is_undefined r then VStr "" else r) a'.
Proof.
  unfold normalize.
  destruct v; cbn; try (intros [= <- <-]; done);
    repeat case_match;
    cbv [mret M_ret ret throw mbind M_bind bind modify gets];
    intros; simplify_eq; cbn in *; try done; congruence.
Qed.

End CtrlEdges.

(** ** Worked instances *)

Module Demo2.

Import Runtime.

(** A shell that comes with a [framework] property of its own. *)
Definition shell : info := [("framework", VStr "Other"); ("app", VStr "x")].

Definition prepare_ok : list value → M nat info := λ _, modify S;; mret shell.
Definition prepare_bad : list value → M nat info := λ _, throw (VError "boom").

(** A framework that prepares instances and takes registrations, and one
    whose [prepareInstance] throws and that has no method. *)
Definition Weex : Framework nat :=
  {| fw_prepareInstance := Some prepare_ok;
     fw_methods := {[ "createInstance" := Demo.count_call;
                      "receiveTasks" := Demo.count_call;
                      "registerComponents" := Demo.count_call ]} |}.

Definition Bad : Framework nat :=
  {| fw_prepareInstance := Some prepare_bad; fw_methods := ∅ |}.

Definition frameworks : gmap string (Framework nat) :=
  {[ "Weex" := Weex; "Bad" := Bad ]}.

(** A store in which the instance y belongs to the framework Foo of
    [Demo.frameworks]. *)
Definition with_y : Store nat :=
  {| instanceMap := {[ "y" := [("framework", VStr "Foo")] ]};
     world := 0%nat; calls := [] |}.

(** An alert with a callback, and the demo app with that task pending. *)
Definition alert : Ctrl.Task :=
  {| Ctrl.task_module := "modal"; Ctrl.task_method := "alert";
     Ctrl.task_args := [VStr "hello"; VFunction 3] |}.

Definition app_pending : Ctrl.App nat :=
  {| Ctrl.id := "x"; Ctrl.uid := 1;
     Ctrl.callbacks := {[ "1" := VFunction 7 ]};
     Ctrl.doc := Some {| Ctrl.listener := Some {| Ctrl.updates := [alert] |} |};
     Ctrl.dom := 0%nat; Ctrl.trace := [] |}.

End Demo2.

Lemma prepareInstance_binds_framework_witness :
  preparer Demo2.frameworks None = Some Demo2.prepare_ok
  ∧ Demo2.prepare_ok [VStr "x"; VObject []; VObject []] 0%nat
    = Ret Demo2.shell 1%nat
  ∧ Runtime.instanceMap
      (final (Runtime.prepareInstance Demo2.frameworks "x" None
                (VObject []) (VObject []) Demo.empty_store)) !! "x"
    = Some [("framework", VStr "Weex"); ("app", VStr "x")].
Proof.
  split_and!; [reflexivity|reflexivity|].
  exact (proj1 (proj2 (prepareInstance_binds_framework Demo2.frameworks
           Demo.ToString_other "x" None (VObject []) (VObject [])
           Demo.empty_store Demo2.prepare_ok Demo2.shell 1%nat
           eq_refl eq_refl))).
Defined.

Lemma prepareInstance_throw_keeps_registry_witness :
  preparer Demo2.frameworks (Some "Bad") = Some Demo2.prepare_bad
  ∧ Demo2.prepare_bad [VStr "y"; VObject []; VObject []] 0%nat
    = Throw (VError "boom") 0%nat
  ∧ ∃ st', Runtime.prepareInstance Demo2.frameworks "y" (Some "Bad")
             (VObject []) (VObject []) Demo2.with_y
           = Throw (VError "boom") st'
           ∧ Runtime.instanceMap st' = Runtime.instanceMap Demo2.with_y.
Proof.
  split_and!; [reflexivity|reflexivity|].
  exact (prepareInstance_throw_keeps_registry Demo2.frameworks "y" (Some "Bad")
           (VObject []) (VObject []) Demo2.with_y Demo2.prepare_bad
           (VError "boom") 0%nat eq_refl eq_refl).
Defined.



Lemma missing_method_throws_witness :
  Runtime.instanceMap Demo2.with_y !! "y" = Some [("framework", VStr "Foo")]
  ∧ Demo.frameworks !! "Foo" = Some Demo.framework
  ∧ Runtime.fw_methods Demo.framework !! "getRoot" = None
  ∧ Runtime.genInstance Demo.frameworks Demo.ToString_other "getRoot" "y" []
      Demo2.with_y
    = Throw TypeError Demo2.with_y.
Proof.
  split_and!; [reflexivity|reflexivity|reflexivity|].
  exact (proj1 (missing_method_throws Demo.frameworks Demo.ToString_other
           "getRoot" "y" [] Demo2.with_y [("framework", VStr "Foo")]
           Demo.framework eq_refl eq_refl eq_refl)).
Defined.


Lemma placeholder_is_unbound_witness :
  preparer Demo.frameworks (Some "UnknownType") = None
  ∧ Demo.frameworks !! "undefined" = None
  ∧ Runtime.genInstance Demo.frameworks Demo.ToString_other "receiveTasks"
      "x" [] Demo.prepared
    = Ret (Runtime.invalid_instance_id "x") Demo.prepared.
Proof.
  assert (Hne : "receiveTasks" ≠ "destroyInstance") by discriminate.
  split_and!; [reflexivity|reflexivity|].
  exact (proj1 (proj2 (placeholder_is_unbound Demo.frameworks
           Demo.ToString_other "x" (Some "UnknownType") (VObject [])
           (VObject []) Demo.empty_store eq_refl eq_refl))
           "receiveTasks" [] Hne).
Defined.



Lemma updateActions_twice_witness :
  let a' := final (Ctrl.updateActions Demo2.app_pending) in
  Ctrl.updateActions Demo2.app_pending = Ret VUndefined a'
  ∧ Ctrl.differ_flush (Ctrl.dom a') = (Ctrl.Normal VUndefined, 0%nat, [])
  ∧ Ctrl.updateActions a' = Ret VUndefined (reacted Ctrl.EDifferFlush 0%nat [] a').
Proof.
  intros a'.
  assert (Hr : Ctrl.updateActions Demo2.app_pending = Ret VUndefined a')
    by (vm_compute; reflexivity).
  split_and!; [exact Hr|reflexivity|].
  exact (proj1 (updateActions_twice Demo2.app_pending VUndefined a'
                  VUndefined 0%nat Hr eq_refl)).
Defined.

Lemma normalize_again_witness :
  let a' := final (Ctrl.normalize (VFunction 3) CtrlDemo.app) in
  Ctrl.normalize (VFunction 3) CtrlDemo.app = Ret (VStr "2") a'
  ∧ Ctrl.normalize (VStr "2") a' = Ret (VStr "2") a'.
Proof.
  intros a'.
  assert (Hr : Ctrl.normalize (VFunction 3) CtrlDemo.app = Ret (VStr "2") a')
    by (vm_compute; reflexivity).
  split; [exact Hr|].
  exact (normalize_again (VFunction 3) CtrlDemo.app (VStr "2") a' Hr).
Defined.

(** ** Stored callbacks *)

Section CtrlSurvive.

Import Ctrl.

Context {Dom : Type} {H : Host Dom}.

Implicit Types (a : App Dom) (v : value) (k : string).

Lemma reacted_then_finish_lookup ev w ts result a k v :
  fresh a → callbacks a !! k = Some v →
  callbacks (final (finish result (reacted ev w ts a))) !! k = Some v.
Proof.
  intros Hf Hk.
  rewrite (extends_lookup (reacted ev w ts a) _ k (extends_finish result _));
    [exact Hk|by apply fresh_reacted|cbn; by rewrite Hk].
Qed.


End CtrlSurvive.

